(** * qsforex strategies: a shallow embedding of [strategy/strategy.py]

    The two stateful strategies of the module are embedded here:
    [PSARWithMACDStrategy] (the trend-reversal indicator engine) and
    [MovingAverageCrossStrategy] (the rolling average crossover detector).

    Modelling conventions.
    - A Python [Decimal] is either a finite number, held as a canonical
      rational [Qc], or the quiet not-a-number.  Arithmetic on finite
      values is exact: the rounding of the decimal context to 28
      significant digits, signalling NaNs and the infinities are outside
      the model.
    - Python integers are [Z].
    - A method that mutates [self] is a computation in a state monad whose
      result is either a returned value or a raised exception; the state
      reached when an exception is raised is kept, as mutations made
      before a Python exception persist.
    - A dictionary keyed by instrument name is a [gmap string _]. *)

From Stdlib Require Import QArith Qcanon Qcabs Lqa.
From stdpp Require Import base gmap strings list fin_maps.

Local Open Scope Z_scope.

(** ** Python exceptions and the state-and-exception monad *)

Inductive exn : Type :=
  | IndexError
  | KeyError
  | ValueError
  | TypeError
  | AttributeError
  | UnboundLocalError
  | InvalidOperation
  | ZeroDivisionError.

Inductive result (A : Type) : Type :=
  | Returned (a : A)
  | Raised (e : exn).
Arguments Returned {A} a.
Arguments Raised {A} e.

Definition M (S A : Type) : Type := S -> result A * S.

Definition ret {S A} (a : A) : M S A := fun s => (Returned a, s).

Definition raise {S A} (e : exn) : M S A := fun s => (Raised e, s).

Definition bind {S A B} (c : M S A) (k : A -> M S B) : M S B :=
  fun s =>
    match c s with
    | (Returned a, s') => k a s'
    | (Raised e, s') => (Raised e, s')
    end.

Definition gets {S A} (f : S -> A) : M S A := fun s => (Returned (f s), s).

Definition modify {S} (f : S -> S) : M S unit := fun s => (Returned tt, f s).

Declare Scope py_scope.
Delimit Scope py_scope with py.
Notation "x <- c ;; k" := (bind c (fun x => k))
  (at level 100, c at next level, k at level 200, right associativity) : py_scope.
Notation "c ;; k" := (bind c (fun _ => k))
  (at level 100, k at level 200, right associativity) : py_scope.

(** [when b c] is [if b: c] without an [else]. *)
Definition when {S} (b : bool) (c : M S unit) : M S unit :=
  if b then c else ret tt.

(** [wp c Q E s]: run from [s], [c] either returns a value and a state
    satisfying [Q], or raises an exception in a state satisfying [E]. *)
Definition wp {S A} (c : M S A) (Q : A -> S -> Prop) (E : exn -> S -> Prop)
    (s : S) : Prop :=
  match c s with
  | (Returned a, s') => Q a s'
  | (Raised e, s') => E e s'
  end.

(** A computation that never touches the state. *)
Definition stateless {S A} (c : M S A) : Prop := forall s, snd (c s) = s.

(** ** Decimal *)

Inductive Decimal : Type :=
  | Fin (q : Qc)
  | NaN.

Definition is_nan (d : Decimal) : bool :=
  match d with NaN => true | Fin _ => false end.

Definition finite (d : Decimal) : Prop := is_nan d = false.

(** [Decimal(n)] for an integer [n], and the literal [n/d]. *)
Definition Decimal_of_Z (n : Z) : Decimal := Fin (Q2Qc (inject_Z n)).
Definition dec (n : Z) (d : positive) : Decimal := Fin (Q2Qc (n # d)).

Definition Qc_ltb (a b : Qc) : bool :=
  match (a ?= b)%Qc with Lt => true | _ => false end.

Definition Qc_eqb (a b : Qc) : bool :=
  match (a ?= b)%Qc with Eq => true | _ => false end.

(** Order between finite decimals, as propositions for the statements;
    neither holds of a NaN. *)
Definition dec_le (a b : Decimal) : Prop :=
  match a, b with
  | Fin x, Fin y => (x <= y)%Qc
  | _, _ => False
  end.

Definition dec_abs_le (a b : Decimal) : Prop :=
  match a, b with
  | Fin x, Fin y => (Qcabs x <= y)%Qc
  | _, _ => False
  end.

(** [m] is the largest (smallest) number of a list of decimals. *)
Definition is_max (m : Qc) (xs : list Decimal) : Prop :=
  Fin m ∈ xs /\ forall q, Fin q ∈ xs -> (q <= m)%Qc.

Definition is_min (m : Qc) (xs : list Decimal) : Prop :=
  Fin m ∈ xs /\ forall q, Fin q ∈ xs -> (m <= q)%Qc.

(** Arithmetic propagates a quiet NaN without signalling. *)
Definition dec_add (a b : Decimal) : Decimal :=
  match a, b with
  | Fin x, Fin y => Fin (x + y)%Qc
  | _, _ => NaN
  end.

Definition dec_sub (a b : Decimal) : Decimal :=
  match a, b with
  | Fin x, Fin y => Fin (x - y)%Qc
  | _, _ => NaN
  end.

Definition dec_mul (a b : Decimal) : Decimal :=
  match a, b with
  | Fin x, Fin y => Fin (x * y)%Qc
  | _, _ => NaN
  end.

Definition dec_neg (a : Decimal) : Decimal :=
  match a with
  | Fin x => Fin (- x)%Qc
  | NaN => NaN
  end.

(** Division: a NaN operand gives NaN; otherwise a zero divisor signals
    [DivisionByZero] (a [ZeroDivisionError]) or, for [0/0],
    [InvalidOperation]; both are trapped by the default context. *)
Definition dec_div {S} (a b : Decimal) : M S Decimal :=
  match a, b with
  | Fin x, Fin y =>
      if Qc_eqb y 0%Qc then
        if Qc_eqb x 0%Qc then raise InvalidOperation else raise ZeroDivisionError
      else ret (Fin (x / y)%Qc)
  | _, _ => ret NaN
  end.

(** The ordering comparisons [<] and [>] signal [InvalidOperation] on a
    NaN operand. *)
Definition dec_lt {S} (a b : Decimal) : M S bool :=
  match a, b with
  | Fin x, Fin y => ret (Qc_ltb x y)
  | _, _ => raise InvalidOperation
  end.

Definition dec_gt {S} (a b : Decimal) : M S bool := dec_lt b a.

Local Open Scope py_scope.

(** The builtins [min(a, b)] and [max(a, b)]: the first argument is kept
    unless the second is strictly smaller (larger). *)
Definition py_min2 {S} (a b : Decimal) : M S Decimal :=
  c <- dec_lt b a ;; ret (if c then b else a).

Definition py_max2 {S} (a b : Decimal) : M S Decimal :=
  c <- dec_gt b a ;; ret (if c then b else a).

(** The builtins [min(xs)] and [max(xs)] over a list: [ValueError] on an
    empty list, otherwise a left-to-right scan. *)
Fixpoint min_from {S} (acc : Decimal) (xs : list Decimal) : M S Decimal :=
  match xs with
  | [] => ret acc
  | x :: r => c <- dec_lt x acc ;; min_from (if c then x else acc) r
  end.

Fixpoint max_from {S} (acc : Decimal) (xs : list Decimal) : M S Decimal :=
  match xs with
  | [] => ret acc
  | x :: r => c <- dec_gt x acc ;; max_from (if c then x else acc) r
  end.

Definition py_min {S} (xs : list Decimal) : M S Decimal :=
  match xs with
  | [] => raise ValueError
  | x :: r => min_from x r
  end.

Definition py_max {S} (xs : list Decimal) : M S Decimal :=
  match xs with
  | [] => raise ValueError
  | x :: r => max_from x r
  end.

(** [xs[-1]]. *)
Definition py_last {S} (xs : list Decimal) : M S Decimal :=
  match last xs with
  | Some x => ret x
  | None => raise IndexError
  end.

(** An operand that may be [None]: arithmetic on [None] is a [TypeError]. *)
Definition num {S} (o : option Decimal) : M S Decimal :=
  match o with
  | Some d => ret d
  | None => raise TypeError
  end.

(** A local variable that may not have been assigned yet. *)
Definition local {S} (o : option Decimal) : M S Decimal :=
  match o with
  | Some d => ret d
  | None => raise UnboundLocalError
  end.

(** ** Events *)

Record Event : Type := mkEvent {
  type : string;
  instrument : string;
  time : Z;
  bid : Decimal;
  ask : Decimal;
  bid_high : Decimal;
  bid_low : Decimal;
  ask_high : Decimal;
  ask_low : Decimal;
}.

Record SignalEvent : Type := mkSignalEvent {
  sig_instrument : string;
  sig_order_type : string;
  sig_side : string;
  sig_time : Z;
}.

(** Attribute access on [pd["last_event"]], which may be [None]. *)
Definition attr {S} (o : option Event) (f : Event -> Decimal) : M S Decimal :=
  match o with
  | Some e => ret (f e)
  | None => raise AttributeError
  end.

(** ** The call frame of [calculate_signals]

    [pd = self.pairs_dict[pair]] binds [pd] to the dictionary entry
    itself, so every later [pd[...] = ...] mutates the strategy's state
    in place.  The body of the method therefore runs on a frame made of
    that entry and of the event queue [self.events]; the caller stores
    both back whatever the outcome. *)

Record Frame (P : Type) : Type := mkFrame {
  fr_pd : P;
  fr_events : list SignalEvent;
}.
Arguments mkFrame {P} _ _.
Arguments fr_pd {P} _.
Arguments fr_events {P} _.

(** [pd[...]] read through a projection, and [pd[...] = v] through an
    update of the record. *)
Definition rd {P A} (f : P -> A) : M (Frame P) A :=
  gets (fun fr => f (fr_pd fr)).

Definition wr {P} (upd : P -> P) : M (Frame P) unit :=
  modify (fun fr => mkFrame (upd (fr_pd fr)) (fr_events fr)).

(** [self.events.put(signal)]. *)
Definition put {P} (signal : SignalEvent) : M (Frame P) unit :=
  modify (fun fr => mkFrame (fr_pd fr) (fr_events fr ++ [signal])).

(** [pairs[0]]. *)
Definition first_pair {S} (pairs : list string) : M S string :=
  match pairs with
  | p :: _ => ret p
  | [] => raise IndexError
  end.

(** ** Shapes of computations and of signal lists *)

(** A computation whose outcome does not depend on the state, which it
    leaves as it is. *)
Definition constant {S A} (c : M S A) : Prop :=
  exists r, forall s, c s = (r, s).

(** A computation on a frame that does not read the event queue and only
    appends to it. *)
Definition appends {P A} (c : M (Frame P) A) : Prop :=
  forall pd evs,
    c (mkFrame pd evs) =
      (fst (c (mkFrame pd [])),
       mkFrame (fr_pd (snd (c (mkFrame pd []))))
         (evs ++ fr_events (snd (c (mkFrame pd []))))).

(** No two consecutive sides are the same. *)
Fixpoint alternating (sides : list string) : bool :=
  match sides with
  | a :: (b :: _) as r => negb (String.eqb a b) && alternating r
  | _ => true
  end.

(** Every signal is a buy or a sell. *)
Definition buys_and_sells (new : list SignalEvent) : Prop :=
  Forall (fun s => sig_side s = "buy" \/ sig_side s = "sell") new.

(** * TestStrategy *)

Module TestStrategy.

Record Self : Type := mkSelf {
  pairs : list string;
  events : list SignalEvent;
  ticks : Z;
  invested : bool;
}.

(** [__init__(self, pairs, events)]. *)
Definition __init__ (pairs : list string) (events : list SignalEvent) : Self :=
  {| pairs := pairs; events := events; ticks := 0; invested := false |}.

(** [self.events.put(signal)], [self.invested = v] and [self.ticks = v]. *)
Definition events_put (signal : SignalEvent) : M Self unit :=
  modify (fun s => mkSelf (pairs s) (events s ++ [signal]) (ticks s) (invested s)).

Definition set_invested (v : bool) : M Self unit :=
  modify (fun s => mkSelf (pairs s) (events s) (ticks s) v).

Definition set_ticks (v : Z) : M Self unit :=
  modify (fun s => mkSelf (pairs s) (events s) v (invested s)).

(** [calculate_signals(self, event)]; [and] evaluates [self.pairs[0]]
    only for an event of type TICK, and [%] with the positive modulus 5
    is the floored remainder. *)
Definition calculate_signals (event : Event) : M Self unit :=
  if String.eqb (type event) "TICK" then
    ps <- gets pairs ;;
    p0 <- first_pair ps ;;
    if String.eqb (instrument event) p0 then
      t <- gets ticks ;;
      when (t mod 5 =? 0)
        (inv <- gets invested ;;
         if negb inv then
           ps <- gets pairs ;;
           p0 <- first_pair ps ;;
           events_put (mkSignalEvent p0 "market" "buy" (time event)) ;;
           set_invested true
         else
           ps <- gets pairs ;;
           p0 <- first_pair ps ;;
           events_put (mkSignalEvent p0 "market" "sell" (time event)) ;;
           set_invested false) ;;
      t <- gets ticks ;;
      set_ticks (t + 1)
    else ret tt
  else ret tt.

Definition feed (evs : list Event) (self : Self) : Self :=
  foldl (fun s e => snd (calculate_signals e s)) self evs.

(** ** What the statements about the strategy use *)

(** The test of line 24: a tick of the instrument [p0]. *)
Definition accepted (p0 : string) (e : Event) : bool :=
  String.eqb (type e) "TICK" && String.eqb (instrument e) p0.

(** The signals of the docstring for the accepted ticks [evs], the first
    of which is the [n]-th accepted tick since creation (from 0): one
    signal on every fifth tick, a buy when the number of the five-tick
    period is even and a sell when it is odd. *)
Fixpoint cadence (p0 : string) (n : Z) (evs : list Event) : list SignalEvent :=
  match evs with
  | [] => []
  | e :: r =>
      (if n mod 5 =? 0 then
         [mkSignalEvent p0 "market" (if Z.even (n / 5) then "buy" else "sell")
            (time e)]
       else []) ++ cadence p0 (n + 1) r
  end.

End TestStrategy.

(** * PSARWithMACDStrategy *)

Module PSARWithMACDStrategy.

Record PairState : Type := mkPairState {
  pd_af : Decimal;
  pd_direction : Z;
  pd_ep : Decimal;
  pd_invested : bool;
  pd_long : bool;
  pd_short : bool;
  pd_ticks : Z;
  pd_highs : list Decimal;
  pd_last_event : option Event;
  pd_lows : list Decimal;
  pd_prior_sar : option Decimal;
}.

Definition set_af (v : Decimal) (p : PairState) : PairState :=
  mkPairState v (pd_direction p) (pd_ep p) (pd_invested p) (pd_long p)
    (pd_short p) (pd_ticks p) (pd_highs p) (pd_last_event p) (pd_lows p)
    (pd_prior_sar p).
Definition set_direction (v : Z) (p : PairState) : PairState :=
  mkPairState (pd_af p) v (pd_ep p) (pd_invested p) (pd_long p)
    (pd_short p) (pd_ticks p) (pd_highs p) (pd_last_event p) (pd_lows p)
    (pd_prior_sar p).
Definition set_ep (v : Decimal) (p : PairState) : PairState :=
  mkPairState (pd_af p) (pd_direction p) v (pd_invested p) (pd_long p)
    (pd_short p) (pd_ticks p) (pd_highs p) (pd_last_event p) (pd_lows p)
    (pd_prior_sar p).
Definition set_long (v : bool) (p : PairState) : PairState :=
  mkPairState (pd_af p) (pd_direction p) (pd_ep p) (pd_invested p) v
    (pd_short p) (pd_ticks p) (pd_highs p) (pd_last_event p) (pd_lows p)
    (pd_prior_sar p).
Definition set_short (v : bool) (p : PairState) : PairState :=
  mkPairState (pd_af p) (pd_direction p) (pd_ep p) (pd_invested p) (pd_long p)
    v (pd_ticks p) (pd_highs p) (pd_last_event p) (pd_lows p)
    (pd_prior_sar p).
Definition set_ticks (v : Z) (p : PairState) : PairState :=
  mkPairState (pd_af p) (pd_direction p) (pd_ep p) (pd_invested p) (pd_long p)
    (pd_short p) v (pd_highs p) (pd_last_event p) (pd_lows p)
    (pd_prior_sar p).
Definition set_highs (v : list Decimal) (p : PairState) : PairState :=
  mkPairState (pd_af p) (pd_direction p) (pd_ep p) (pd_invested p) (pd_long p)
    (pd_short p) (pd_ticks p) v (pd_last_event p) (pd_lows p)
    (pd_prior_sar p).
Definition set_last_event (v : option Event) (p : PairState) : PairState :=
  mkPairState (pd_af p) (pd_direction p) (pd_ep p) (pd_invested p) (pd_long p)
    (pd_short p) (pd_ticks p) (pd_highs p) v (pd_lows p)
    (pd_prior_sar p).
Definition set_lows (v : list Decimal) (p : PairState) : PairState :=
  mkPairState (pd_af p) (pd_direction p) (pd_ep p) (pd_invested p) (pd_long p)
    (pd_short p) (pd_ticks p) (pd_highs p) (pd_last_event p) v
    (pd_prior_sar p).
Definition set_prior_sar (v : option Decimal) (p : PairState) : PairState :=
  mkPairState (pd_af p) (pd_direction p) (pd_ep p) (pd_invested p) (pd_long p)
    (pd_short p) (pd_ticks p) (pd_highs p) (pd_last_event p) (pd_lows p)
    v.

Record Self : Type := mkSelf {
  pairs : list string;
  events : list SignalEvent;
  step : Decimal;
  af : Decimal;
  af_max : Decimal;
  pairs_dict : gmap string PairState;
}.

(** [create_pairs_dict]: every pair gets its own deep copy of the
    attribute dictionary. *)
Definition attr_dict (af : Decimal) : PairState :=
  {| pd_af := af;
     pd_direction := 0;
     pd_ep := Decimal_of_Z 0;
     pd_invested := false;
     pd_long := false;
     pd_short := false;
     pd_ticks := 0;
     pd_highs := [];
     pd_last_event := None;
     pd_lows := [];
     pd_prior_sar := None |}.

Definition create_pairs_dict (pairs : list string) (af : Decimal)
  : gmap string PairState :=
  foldl (fun d p => <[p := attr_dict af]> d) ∅ pairs.

(** [__init__(self, pairs, events, step, af, af_max)]; the defaults of
    the three numbers are 0.02, 0.2 and 0.2. *)
Definition __init__ (pairs : list string) (events : list SignalEvent)
    (step af af_max : Decimal) : Self :=
  {| pairs := pairs;
     events := events;
     step := step;
     af := af;
     af_max := af_max;
     pairs_dict := create_pairs_dict pairs af |}.

Definition in_uptrend (pd : PairState) (event : Event) : bool :=
  0 <? pd_direction pd.

Definition in_downtrend (pd : PairState) (event : Event) : bool :=
  pd_direction pd <? 0.

Section body.
Variable self : Self.
Variable event : Event.

Local Abbreviation F := (Frame PairState).

(** Lines 94-108: the branch [elif pd["ticks"] == 1]. *)
Definition seed : M F unit :=
  m <- dec_div (dec_add (dec_add (dec_add (ask_high event) (ask_low event))
                           (bid_high event)) (bid_low event))
               (Decimal_of_Z 4) ;;
  wr (set_prior_sar (Some m)) ;;
  o <- rd pd_prior_sar ;;
  ps <- num o ;;
  c <- dec_gt (dec_sub ps (bid_low event)) (dec_sub (bid_high event) ps) ;;
  if c then
    wr (set_direction 1) ;;
    le <- rd pd_last_event ;;
    h <- attr le ask_high ;;
    wr (fun p => set_highs (pd_highs p ++ [h]) p) ;;
    le <- rd pd_last_event ;;
    l <- attr le ask_low ;;
    wr (fun p => set_lows (pd_lows p ++ [l]) p) ;;
    wr (set_af (af self)) ;;
    hs <- rd pd_highs ;;
    e <- py_max hs ;;
    wr (set_ep e)
  else
    wr (set_direction (-1)) ;;
    le <- rd pd_last_event ;;
    h <- attr le bid_high ;;
    wr (fun p => set_highs (pd_highs p ++ [h]) p) ;;
    le <- rd pd_last_event ;;
    l <- attr le bid_low ;;
    wr (fun p => set_lows (pd_lows p ++ [l]) p) ;;
    wr (set_af (dec_neg (af self))) ;;
    ls <- rd pd_lows ;;
    e <- py_min ls ;;
    wr (set_ep e).

(** Lines 111-123: the branch [if self.in_uptrend(pd, event)]; the
    value returned is the local [sar]. *)
Definition uptrend : M F Decimal :=
  wr (fun p => set_highs (pd_highs p ++ [ask_high event]) p) ;;
  wr (fun p => set_lows (pd_lows p ++ [ask_low event]) p) ;;
  o <- rd pd_prior_sar ;;
  ps <- num o ;;
  a <- rd pd_af ;;
  e <- rd pd_ep ;;
  let sar := dec_add ps (dec_mul a (dec_sub e ps)) in
  hs <- rd pd_highs ;;
  high <- py_last hs ;;
  e <- rd pd_ep ;;
  c <- dec_gt high e ;;
  when c (a <- rd pd_af ;;
          a' <- py_min2 (dec_add a (step self)) (af_max self) ;;
          wr (set_af a') ;;
          wr (set_ep high)) ;;
  ls <- rd pd_lows ;;
  lo <- py_min ls ;;
  c <- dec_lt lo sar ;;
  if c then
    wr (set_direction (-2)) ;;
    wr (set_af (dec_neg (af self))) ;;
    e <- rd pd_ep ;;
    ret e
  else ret sar.

(** Lines 126-138: the branch [elif self.in_downtrend(pd, event)]. *)
Definition downtrend : M F Decimal :=
  wr (fun p => set_highs (pd_highs p ++ [bid_high event]) p) ;;
  wr (fun p => set_lows (pd_lows p ++ [bid_low event]) p) ;;
  o <- rd pd_prior_sar ;;
  ps <- num o ;;
  a <- rd pd_af ;;
  e <- rd pd_ep ;;
  let sar := dec_add ps (dec_mul a (dec_sub ps e)) in
  ls <- rd pd_lows ;;
  low <- py_last ls ;;
  e <- rd pd_ep ;;
  c <- dec_lt low e ;;
  when c (a <- rd pd_af ;;
          a' <- py_max2 (dec_sub a (step self)) (dec_neg (af_max self)) ;;
          wr (set_af a') ;;
          wr (set_ep low)) ;;
  hs <- rd pd_highs ;;
  hi <- py_max hs ;;
  c <- dec_gt hi sar ;;
  if c then
    wr (set_af (af self)) ;;
    e <- rd pd_ep ;;
    ret e
  else ret sar.

(** Lines 110-141: the trend branches, then the normalisation of the
    transient direction -2.  The local [sar] stays unassigned ([None])
    when neither branch runs. *)
Definition trend : M F (option Decimal) :=
  p <- rd id ;;
  sar <- (if in_uptrend p event then
            s <- uptrend ;; ret (Some s)
          else if in_downtrend p event then
            s <- downtrend ;; ret (Some s)
          else ret None) ;;
  d <- rd pd_direction ;;
  when (d =? -2) (wr (set_direction (-1))) ;;
  ret sar.

(** Lines 143-157: the two signal tests. *)
Definition signals (sar : option Decimal) : M F Decimal :=
  s <- local sar ;;
  c <- dec_lt s (ask event) ;;
  when c (lg <- rd pd_long ;;
          when (negb lg)
            (p0 <- first_pair (pairs self) ;;
             put (mkSignalEvent p0 "market" "buy" (time event)) ;;
             wr (set_long true) ;;
             wr (set_short false))) ;;
  c <- dec_gt s (bid event) ;;
  when c (sh <- rd pd_short ;;
          when (negb sh)
            (p0 <- first_pair (pairs self) ;;
             put (mkSignalEvent p0 "market" "sell" (time event)) ;;
             wr (set_short true) ;;
             wr (set_long false))) ;;
  ret s.

(** Lines 159-161. *)
Definition finish (sar : Decimal) : M F unit :=
  wr (set_prior_sar (Some sar)) ;;
  wr (set_last_event (Some event)) ;;
  t <- rd pd_ticks ;;
  wr (set_ticks (t + 1)).

(** Lines 83-161: what runs once [pd] is bound. *)
Definition on_tick : M F unit :=
  if is_nan (ask_high event) || is_nan (ask_low event) ||
     is_nan (bid_high event) || is_nan (bid_low event) then
    ret tt
  else
    t <- rd pd_ticks ;;
    if t =? 0 then
      wr (set_last_event (Some event)) ;;
      t <- rd pd_ticks ;;
      wr (set_ticks (t + 1))
    else
      when (t =? 1) seed ;;
      sar <- trend ;;
      s <- signals sar ;;
      finish s.
End body.

(** [calculate_signals(self, event)]. *)
Definition calculate_signals (event : Event) : M Self unit :=
  fun self =>
    if String.eqb (type event) "TICK" then
      match first_pair (pairs self) self with
      | (Raised e, _) => (Raised e, self)
      | (Returned p0, _) =>
          if String.eqb (instrument event) p0 then
            let pair := instrument event in
            match pairs_dict self !! pair with
            | None => (Raised KeyError, self)
            | Some pd =>
                let '(r, fr) := on_tick self event (mkFrame pd (events self)) in
                (r, {| pairs := pairs self;
                       events := fr_events fr;
                       step := step self;
                       af := af self;
                       af_max := af_max self;
                       pairs_dict := <[pair := fr_pd fr]> (pairs_dict self) |})
            end
          else (Returned tt, self)
      end
    else (Returned tt, self).

(** A caller feeding events one after the other.  An exception raised by
    one call is not allowed to stop the run here, so that what is proved
    of every run also covers a caller that catches it. *)
Definition feed (evs : list Event) (self : Self) : Self :=
  foldl (fun s e => snd (calculate_signals e s)) self evs.


(** ** Predicates used in the statements about the strategy *)

(** The configuration of a strategy object: what [calculate_signals]
    only reads. *)
Definition same_config (s s' : Self) : Prop :=
  pairs s' = pairs s /\ step s' = step s /\ af s' = af s /\ af_max s' = af_max s.

(** The test of line 77: a tick of the primary instrument. *)
Definition accepted (self : Self) (e : Event) : Prop :=
  type e = "TICK" /\ head (pairs self) = Some (instrument e).

(** The test of lines 83-84: one of the four high/low fields is NaN. *)
Definition malformed (e : Event) : Prop :=
  is_nan (ask_high e) = true \/ is_nan (ask_low e) = true \/
  is_nan (bid_high e) = true \/ is_nan (bid_low e) = true.

(** [long] and [short] are not both set. *)
Definition exclusive (pd : PairState) : Prop :=
  ~ (pd_long pd = true /\ pd_short pd = true).

(** [|pd["af"]| <= m]. *)
Definition af_bounded (m : Decimal) (pd : PairState) : Prop :=
  dec_abs_le (pd_af pd) m.

(** The configuration [step = x], [af = y], [af_max = z], and a state
    whose acceleration factor lies between [-z] and [z]. *)
Definition af_config (x y z : Qc) (self : Self) : Prop :=
  step self = Fin x /\ af self = Fin y /\ af_max self = Fin z.

Definition af_within (z : Qc) (pd : PairState) : Prop :=
  exists a, pd_af pd = Fin a /\ (- z <= a)%Qc /\ (a <= z)%Qc.

(** The four high/low fields pass the test of lines 83-84. *)
Definition finite_event (e : Event) : Prop :=
  finite (ask_high e) /\ finite (ask_low e) /\
  finite (bid_high e) /\ finite (bid_low e).

Definition finite_config (self : Self) : Prop :=
  finite (step self) /\ finite (af self) /\ finite (af_max self).

(** What the steady-state computation of lines 110-161 relies on: a
    trend, histories that are not empty and a prior indicator value. *)
Definition seeded (pd : PairState) : Prop :=
  (pd_direction pd = 1 \/ pd_direction pd = -1) /\
  pd_highs pd <> [] /\ pd_lows pd <> [] /\
  exists q, pd_prior_sar pd = Some (Fin q).

(** The prices held by the state are finite, and a last event is held
    once a tick has been counted. *)
Definition grounded (pd : PairState) : Prop :=
  0 <= pd_ticks pd /\
  Forall finite (pd_highs pd) /\ Forall finite (pd_lows pd) /\
  finite (pd_ep pd) /\
  (forall d, pd_prior_sar pd = Some d -> finite d) /\
  (1 <= pd_ticks pd ->
   exists le, pd_last_event pd = Some le /\ finite_event le).

(** The invariant of the state of a pair. *)
Definition tracked (pd : PairState) : Prop :=
  grounded pd /\ (2 <= pd_ticks pd -> seeded pd).

(** The seed of the indicator in the words of the specification: the
    arithmetic mean of the four high/low fields of the tick. *)
Definition mean_high_low (e : Event) : Decimal :=
  match ask_high e, ask_low e, bid_high e, bid_low e with
  | Fin a, Fin b, Fin c, Fin d => Fin ((a + b + c + d) / Q2Qc 4)%Qc
  | _, _, _, _ => NaN
  end.

(** [seed - bid_low > bid_high - seed]. *)
Definition closer_to_high (seed : Decimal) (e : Event) : Prop :=
  match seed, bid_low e, bid_high e with
  | Fin s, Fin l, Fin h => (h - s < s - l)%Qc
  | _, _, _ => False
  end.

(** The state [pd'] that the branch of tick 1 leaves when it has set the
    trend [dir] and the factor [a], and seeded the histories with [h] and
    [l]; [ep] is the extreme it has computed. *)
Definition seeded_with (dir : Z) (h l a : Decimal) (pd pd' : PairState) : Prop :=
  pd_direction pd' = dir /\
  pd_highs pd' = pd_highs pd ++ [h] /\
  pd_lows pd' = pd_lows pd ++ [l] /\
  pd_af pd' = a.

(** ** Concrete ticks used in the examples *)

(** A tick of EURUSD at time [t] with the six prices given as integers. *)
Definition tick (t b a bh bl ah al : Z) : Event :=
  mkEvent "TICK" "EURUSD" t (Decimal_of_Z b) (Decimal_of_Z a)
    (Decimal_of_Z bh) (Decimal_of_Z bl) (Decimal_of_Z ah) (Decimal_of_Z al).

(** The default numbers [step=0.02], [af=0.2] and [af_max=0.2] are binary
    floats, which [Decimal(...)] converts exactly. *)
Definition default_step : Decimal := dec 5764607523034235 288230376151711744.
Definition default_af : Decimal := dec 3602879701896397 18014398509481984.

Definition default_strategy : Self :=
  __init__ ["EURUSD"] [] default_step default_af default_af.

(** Two flat ticks, which seed a downtrend, and a third tick whose
    bid-high 11 exceeds the indicator. *)
Definition flat_ticks : list Event :=
  [tick 0 10 10 10 10 10 10; tick 1 10 10 10 10 10 10].

Definition rising_tick : Event := tick 2 10 11 11 10 11 10.

(** The indicator computed on a tick in a downtrend (line 129). *)
Definition downtrend_sar (pd : PairState) : Decimal :=
  match pd_prior_sar pd with
  | Some ps => dec_add ps (dec_mul (pd_af pd) (dec_sub ps (pd_ep pd)))
  | None => NaN
  end.

(** A tick with a missing ask-high, and a tick of another instrument. *)
Definition nan_tick : Event :=
  mkEvent "TICK" "EURUSD" 3 (Decimal_of_Z 10) (Decimal_of_Z 10)
    (Decimal_of_Z 10) (Decimal_of_Z 10) NaN (Decimal_of_Z 10).

Definition other_tick : Event :=
  mkEvent "TICK" "GBPUSD" 3 (Decimal_of_Z 10) (Decimal_of_Z 11)
    (Decimal_of_Z 11) (Decimal_of_Z 10) (Decimal_of_Z 11) (Decimal_of_Z 10).

(** ** Further predicates and examples *)

(** A strategy tracking two pairs, with the default numbers. *)
Definition two_pair_strategy : Self :=
  __init__ ["EURUSD"; "GBPUSD"] [] default_step default_af default_af.

(** The direction is one of the three values the code compares it with
    between two calls. *)
Definition directed (pd : PairState) : Prop :=
  pd_direction pd = 0 \/ pd_direction pd = 1 \/ pd_direction pd = -1.

(** The six prices of a tick are finite. *)
Definition finite_prices (e : Event) : Prop :=
  finite_event e /\ finite (ask e) /\ finite (bid e).

(** The two signals a call can put for the event [e]. *)
Definition buy_at (e : Event) : SignalEvent :=
  mkSignalEvent (instrument e) "market" "buy" (time e).

Definition sell_at (e : Event) : SignalEvent :=
  mkSignalEvent (instrument e) "market" "sell" (time e).

(** A tick with finite high/low fields whose ask price is missing. *)
Definition nan_ask_tick : Event :=
  mkEvent "TICK" "EURUSD" 2 (Decimal_of_Z 10) NaN
    (Decimal_of_Z 11) (Decimal_of_Z 10) (Decimal_of_Z 11) (Decimal_of_Z 10).

(** What one call can add to the event queue for the event [e]. *)
Definition put_by (e : Event) (new : list SignalEvent) : Prop :=
  new = [] \/ new = [buy_at e] \/ new = [sell_at e] \/
  new = [buy_at e; sell_at e].

(** The signals [new] put since the queue held [evs0] are buys and sells
    in turn, and the flags [lg] and [sh] of the primary pair record the
    side of the last one. *)
Definition linked (evs0 : list SignalEvent) (lg sh : bool)
    (evs : list SignalEvent) : Prop :=
  exists new,
    evs = evs0 ++ new /\
    Forall (fun s => sig_side s = "buy" \/ sig_side s = "sell") new /\
    alternating (map sig_side new) = true /\
    (last (map sig_side new) = Some "buy" -> lg = true) /\
    (last (map sig_side new) = Some "sell" -> sh = true).

(** The indicator computed on a tick in an uptrend (line 114). *)
Definition uptrend_sar (ps a ep : Qc) : Qc := (ps + a * (ep - ps))%Qc.

(** A pair in an uptrend: indicator 10, extreme 12, one earlier pair of
    prices in the histories. *)
Definition uptrend_state : PairState :=
  {| pd_af := default_af;
     pd_direction := 1;
     pd_ep := Decimal_of_Z 12;
     pd_invested := false;
     pd_long := true;
     pd_short := false;
     pd_ticks := 2;
     pd_highs := [Decimal_of_Z 12];
     pd_last_event := Some (tick 1 11 12 12 11 12 11);
     pd_lows := [Decimal_of_Z 11];
     pd_prior_sar := Some (Decimal_of_Z 10) |}.

(** A tick whose ask-low 9 falls below the indicator. *)
Definition falling_tick : Event := tick 2 9 10 10 9 10 9.

End PSARWithMACDStrategy.

(** * MovingAverageCrossStrategy *)

Module MovingAverageCrossStrategy.

Record PairState : Type := mkPairState {
  pd_ticks : Z;
  pd_invested : bool;
  pd_short_sma : option Decimal;
  pd_long_sma : option Decimal;
}.

Definition set_ticks (v : Z) (p : PairState) : PairState :=
  mkPairState v (pd_invested p) (pd_short_sma p) (pd_long_sma p).
Definition set_invested (v : bool) (p : PairState) : PairState :=
  mkPairState (pd_ticks p) v (pd_short_sma p) (pd_long_sma p).
Definition set_short_sma (v : option Decimal) (p : PairState) : PairState :=
  mkPairState (pd_ticks p) (pd_invested p) v (pd_long_sma p).
Definition set_long_sma (v : option Decimal) (p : PairState) : PairState :=
  mkPairState (pd_ticks p) (pd_invested p) (pd_short_sma p) v.

Record Self : Type := mkSelf {
  pairs : list string;
  pairs_dict : gmap string PairState;
  events : list SignalEvent;
  short_window : Z;
  long_window : Z;
}.

Definition attr_dict : PairState :=
  {| pd_ticks := 0;
     pd_invested := false;
     pd_short_sma := None;
     pd_long_sma := None |}.

Definition create_pairs_dict (pairs : list string) : gmap string PairState :=
  foldl (fun d p => <[p := attr_dict]> d) ∅ pairs.

(** [__init__(self, pairs, events, short_window, long_window)]; the
    defaults of the windows are 500 and 2000. *)
Definition __init__ (pairs : list string) (events : list SignalEvent)
    (short_window long_window : Z) : Self :=
  {| pairs := pairs;
     pairs_dict := create_pairs_dict pairs;
     events := events;
     short_window := short_window;
     long_window := long_window |}.

(** [calc_rolling_sma(self, sma_m_1, window, price)]:
    [((sma_m_1 * (window - 1)) + price) / window], the integer window
    being converted exactly. *)
Definition calc_rolling_sma {S} (sma_m_1 : option Decimal) (window : Z)
    (price : Decimal) : M S Decimal :=
  s <- num sma_m_1 ;;
  dec_div (dec_add (dec_mul s (Decimal_of_Z (window - 1))) price)
          (Decimal_of_Z window).

Section body.
Variable self : Self.
Variable event : Event.

Local Abbreviation F := (Frame PairState).

(** Lines 209-218: both averages are set or updated. *)
Definition update_smas : M F unit :=
  let price := bid event in
  t <- rd pd_ticks ;;
  if t =? 0 then
    wr (set_short_sma (Some price)) ;;
    wr (set_long_sma (Some price))
  else
    s <- rd pd_short_sma ;;
    s' <- calc_rolling_sma s (short_window self) price ;;
    wr (set_short_sma (Some s')) ;;
    l <- rd pd_long_sma ;;
    l' <- calc_rolling_sma l (long_window self) price ;;
    wr (set_long_sma (Some l')).

(** Lines 221-228: the two crossover tests; [and] evaluates the
    comparison first and the flag only when the comparison holds. *)
Definition crossover : M F unit :=
  let pair := instrument event in
  s <- rd pd_short_sma ;; s <- num s ;;
  l <- rd pd_long_sma ;; l <- num l ;;
  c <- dec_gt s l ;;
  inv <- rd pd_invested ;;
  when (c && negb inv)
    (put (mkSignalEvent pair "market" "buy" (time event)) ;;
     wr (set_invested true)) ;;
  s <- rd pd_short_sma ;; s <- num s ;;
  l <- rd pd_long_sma ;; l <- num l ;;
  c <- dec_lt s l ;;
  inv <- rd pd_invested ;;
  when (c && inv)
    (put (mkSignalEvent pair "market" "sell" (time event)) ;;
     wr (set_invested false)).

(** Lines 209-229: what runs once [pd] is bound. *)
Definition on_tick : M F unit :=
  update_smas ;;
  t <- rd pd_ticks ;;
  when (short_window self <? t) crossover ;;
  t <- rd pd_ticks ;;
  wr (set_ticks (t + 1)).
End body.

(** [calculate_signals(self, event)]. *)
Definition calculate_signals (event : Event) : M Self unit :=
  fun self =>
    if String.eqb (type event) "TICK" then
      let pair := instrument event in
      match pairs_dict self !! pair with
      | None => (Raised KeyError, self)
      | Some pd =>
          let '(r, fr) := on_tick self event (mkFrame pd (events self)) in
          (r, {| pairs := pairs self;
                 pairs_dict := <[pair := fr_pd fr]> (pairs_dict self);
                 events := fr_events fr;
                 short_window := short_window self;
                 long_window := long_window self |})
      end
    else (Returned tt, self).

Definition feed (evs : list Event) (self : Self) : Self :=
  foldl (fun s e => snd (calculate_signals e s)) self evs.


(** ** Predicates used in the statements about the strategy *)

Definition same_config (s s' : Self) : Prop :=
  pairs s' = pairs s /\ short_window s' = short_window s /\
  long_window s' = long_window s.

(** The recurrence of the rolling average in the words of the
    specification: [new = (old * (window - 1) + price) / window]. *)
Definition roll (old : Qc) (window : Z) (price : Qc) : Qc :=
  ((old * Q2Qc (inject_Z (window - 1)) + price) / Q2Qc (inject_Z window))%Qc.

Definition rolling_average (old : Decimal) (window : Z) (price : Decimal)
  : Decimal :=
  match old, price with
  | Fin o, Fin p => Fin (roll o window p)
  | _, _ => NaN
  end.

(** The average after a run of prices. *)
Fixpoint rolls (o : Qc) (w : Z) (ps : list Qc) : Qc :=
  match ps with
  | [] => o
  | p :: r => rolls (roll o w p) w r
  end.

(** A bound of the average after a run of prices that are not below it,
    for a window of at least 3, and the condition of the bound. *)
Fixpoint roll_bound (c : Qc) (ps : list Qc) : Qc :=
  match ps with
  | [] => c
  | p :: r => roll_bound ((Q2Qc 2 * c + p) / Q2Qc 3)%Qc r
  end.

Fixpoint below (c : Qc) (ps : list Qc) : Prop :=
  match ps with
  | [] => True
  | p :: r => (c <= p)%Qc /\ below ((Q2Qc 2 * c + p) / Q2Qc 3)%Qc r
  end.

(** Both averages are defined once a tick has been counted. *)
Definition averaged (pd : PairState) : Prop :=
  0 <= pd_ticks pd /\
  (pd_ticks pd <> 0 ->
   is_Some (pd_short_sma pd) /\ is_Some (pd_long_sma pd)).

(** ** Concrete ticks used in the examples *)

(** A tick of EURUSD at time [t] with bid price [p]; the crossover
    strategy reads no other price. *)
Definition price_tick (t : Z) (p : Z) : Event :=
  mkEvent "TICK" "EURUSD" t (Decimal_of_Z p) (Decimal_of_Z p)
    (Decimal_of_Z p) (Decimal_of_Z p) (Decimal_of_Z p) (Decimal_of_Z p).

(** The price sequence [1.0, 1.0, 1.0, 2.0, 2.0, 2.0]. *)
Definition step_prices : list Event :=
  [price_tick 0 1; price_tick 1 1; price_tick 2 1;
   price_tick 3 2; price_tick 4 2; price_tick 5 2].

(** The strategy with [short_window=2] and the default
    [long_window=2000]. *)
Definition short2_strategy : Self := __init__ ["EURUSD"] [] 2 2000.

Definition buy_signal (t : Z) : SignalEvent :=
  mkSignalEvent "EURUSD" "market" "buy" t.

Definition one : Qc := Q2Qc (inject_Z 1).
Definition two : Qc := Q2Qc (inject_Z 2).

(** The strategy tracking EURUSD with [short_window=2] and the long
    window [lw], when the pair has counted [t] ticks. *)
Definition crossover_state (lw t : Z) (inv : bool) (so lo : Qc)
    (evs : list SignalEvent) : Self :=
  mkSelf ["EURUSD"]
    (<["EURUSD" := mkPairState t inv (Some (Fin so)) (Some (Fin lo))]> ∅)
    evs 2 lw.

(** ** Further predicates and examples *)

(** The ticks of the instrument [p] among the events. *)
Definition ticks_of (p : string) (evs : list Event) : list Event :=
  List.filter (fun e => String.eqb (type e) "TICK" && String.eqb (instrument e) p)
    evs.

(** What one call can add to the event queue for the event [e]. *)
Definition put_by (e : Event) (new : list SignalEvent) : Prop :=
  new = [] \/
  new = [mkSignalEvent (instrument e) "market" "buy" (time e)] \/
  new = [mkSignalEvent (instrument e) "market" "sell" (time e)].

(** The sides of the signals put for the instrument [p]. *)
Definition sides_of (p : string) (new : list SignalEvent) : list string :=
  map sig_side (List.filter (fun s => String.eqb (sig_instrument s) p) new).

(** The bid price of every event is finite. *)
Definition finite_bids (evs : list Event) : Prop :=
  Forall (fun e => finite (bid e)) evs.

(** Both averages are finite once a tick has been counted. *)
Definition settled (pd : PairState) : Prop :=
  0 <= pd_ticks pd /\
  (pd_ticks pd <> 0 ->
   exists s l, pd_short_sma pd = Some (Fin s) /\ pd_long_sma pd = Some (Fin l)).

(** A strategy tracking two instruments, and ticks of the second. *)
Definition two_pair_strategy : Self := __init__ ["EURUSD"; "GBPUSD"] [] 2 3.

Definition gbp_tick (t : Z) (p : Z) : Event :=
  mkEvent "TICK" "GBPUSD" t (Decimal_of_Z p) (Decimal_of_Z p)
    (Decimal_of_Z p) (Decimal_of_Z p) (Decimal_of_Z p) (Decimal_of_Z p).

(** What the body does to the event queue and to the position flag for
    the event [e]: nothing, a buy that opens a position, or a sell that
    closes one. *)
Definition crossed (e : Event) (s s' : Frame PairState) : Prop :=
  (fr_events s' = fr_events s /\
   pd_invested (fr_pd s') = pd_invested (fr_pd s)) \/
  (fr_events s' =
     fr_events s ++ [mkSignalEvent (instrument e) "market" "buy" (time e)] /\
   pd_invested (fr_pd s) = false /\ pd_invested (fr_pd s') = true) \/
  (fr_events s' =
     fr_events s ++ [mkSignalEvent (instrument e) "market" "sell" (time e)] /\
   pd_invested (fr_pd s) = true /\ pd_invested (fr_pd s') = false).

(** The signals [new] put since creation, instrument by instrument:
    buys and sells in turn starting with a buy, the position flag
    recording whether the last one was a buy. *)
Definition long_only (new : list SignalEvent)
    (d : gmap string PairState) : Prop :=
  buys_and_sells new /\
  forall p,
    alternating (sides_of p new) = true /\
    head (sides_of p new) <> Some "sell" /\
    match d !! p with
    | Some pd => pd_invested pd = true <-> last (sides_of p new) = Some "buy"
    | None => sides_of p new = []
    end.

(** Both averages are at the price [c] once a tick has been counted. *)
Definition flat (c : Qc) (pd : PairState) : Prop :=
  0 <= pd_ticks pd /\
  (pd_ticks pd <> 0 ->
   pd_short_sma pd = Some (Fin c) /\ pd_long_sma pd = Some (Fin c)).

(** The strategy with a long window of 0. *)
Definition zero_window_strategy : Self := __init__ ["EURUSD"] [] 2 0.

End MovingAverageCrossStrategy.


(** * Reasoning about computations *)

Section wp.
Context {S : Type}.

Lemma wp_ret {A} (a : A) Q E (s : S) : Q a s -> wp (ret a) Q E s.
Proof. exact (fun H => H). Qed.

Lemma wp_raise {A} e (Q : A -> S -> Prop) E (s : S) : E e s -> wp (raise e) Q E s.
Proof. exact (fun H => H). Qed.

Lemma wp_bind {A B} (c : M S A) (k : A -> M S B) Q E s :
  wp c (fun a s' => wp (k a) Q E s') E s -> wp (bind c k) Q E s.
Proof. unfold wp, bind. destruct (c s) as [[a|e] s']; auto. Qed.

Lemma wp_gets {A} (f : S -> A) Q E s : Q (f s) s -> wp (gets f) Q E s.
Proof. exact (fun H => H). Qed.

Lemma wp_modify (f : S -> S) Q E s : Q tt (f s) -> wp (modify f) Q E s.
Proof. exact (fun H => H). Qed.

Lemma wp_mono {A} (c : M S A) (Q Q' : A -> S -> Prop) (E E' : exn -> S -> Prop) s :
  wp c Q E s ->
  (forall a s', Q a s' -> Q' a s') ->
  (forall e s', E e s' -> E' e s') ->
  wp c Q' E' s.
Proof. unfold wp. destruct (c s) as [[a|e] s']; auto. Qed.

Lemma wp_run {A} (c : M S A) Q E s r s' :
  wp c Q E s -> c s = (r, s') ->
  match r with Returned a => Q a s' | Raised e => E e s' end.
Proof. unfold wp. intros H Heq. rewrite Heq in H. by destruct r. Qed.

Lemma wp_stateless {A} (c : M S A) (Q : A -> S -> Prop) (E : exn -> S -> Prop) s :
  stateless c -> (forall a, Q a s) -> (forall e, E e s) -> wp c Q E s.
Proof.
  unfold wp. intros Hc HQ HE. specialize (Hc s).
  destruct (c s) as [[a|e] s']; simpl in Hc; subst s'; auto.
Qed.

Lemma stateless_ret {A} (a : A) : stateless (@ret S A a).
Proof. done. Qed.

Lemma stateless_raise {A} e : stateless (@raise S A e).
Proof. done. Qed.

Lemma stateless_bind {A B} (c : M S A) (k : A -> M S B) :
  stateless c -> (forall a, stateless (k a)) -> stateless (bind c k).
Proof.
  intros Hc Hk s. unfold bind. specialize (Hc s).
  destruct (c s) as [[a|e] s']; simpl in *; subst s'; [apply Hk | done].
Qed.

Lemma stateless_dec_lt a b : stateless (@dec_lt S a b).
Proof. by destruct a, b. Qed.

Lemma stateless_dec_gt a b : stateless (@dec_gt S a b).
Proof. apply stateless_dec_lt. Qed.

Lemma stateless_dec_div a b : stateless (@dec_div S a b).
Proof.
  destruct a as [x|], b as [y|]; try done.
  unfold dec_div. by destruct (Qc_eqb y 0), (Qc_eqb x 0).
Qed.

Lemma stateless_py_min2 a b : stateless (@py_min2 S a b).
Proof. apply stateless_bind; [apply stateless_dec_lt | done]. Qed.

Lemma stateless_py_max2 a b : stateless (@py_max2 S a b).
Proof. apply stateless_bind; [apply stateless_dec_gt | done]. Qed.

Lemma stateless_min_from xs : forall acc, stateless (@min_from S acc xs).
Proof.
  induction xs as [|x r IH]; intros acc; [done|].
  apply stateless_bind; [apply stateless_dec_lt | intros c; apply IH].
Qed.

Lemma stateless_max_from xs : forall acc, stateless (@max_from S acc xs).
Proof.
  induction xs as [|x r IH]; intros acc; [done|].
  apply stateless_bind; [apply stateless_dec_gt | intros c; apply IH].
Qed.

Lemma stateless_py_min xs : stateless (@py_min S xs).
Proof. destruct xs; [done | apply stateless_min_from]. Qed.

Lemma stateless_py_max xs : stateless (@py_max S xs).
Proof. destruct xs; [done | apply stateless_max_from]. Qed.

Lemma stateless_py_last xs : stateless (@py_last S xs).
Proof. unfold py_last. by destruct (last xs). Qed.

Lemma stateless_num o : stateless (@num S o).
Proof. by destruct o. Qed.

Lemma stateless_local o : stateless (@local S o).
Proof. by destruct o. Qed.

Lemma stateless_attr o f : stateless (@attr S o f).
Proof. by destruct o. Qed.

Lemma stateless_first_pair ps : stateless (@first_pair S ps).
Proof. by destruct ps. Qed.
End wp.

Create HintDb stateless.
#[global] Hint Resolve stateless_ret stateless_raise stateless_dec_lt
  stateless_dec_gt stateless_dec_div stateless_py_min2 stateless_py_max2
  stateless_py_min stateless_py_max stateless_py_last stateless_num
  stateless_local stateless_attr stateless_first_pair : stateless.

Lemma wp_rd {P A} (f : P -> A) Q E (s : Frame P) :
  Q (f (fr_pd s)) s -> wp (rd f) Q E s.
Proof. exact (fun H => H). Qed.

Lemma wp_wr {P} (upd : P -> P) Q E (s : Frame P) :
  Q tt (mkFrame (upd (fr_pd s)) (fr_events s)) -> wp (wr upd) Q E s.
Proof. exact (fun H => H). Qed.

Lemma wp_put {P} sig Q E (s : Frame P) :
  Q tt (mkFrame (fr_pd s) (fr_events s ++ [sig])) -> wp (put sig) Q E s.
Proof. exact (fun H => H). Qed.

(** One step of symbolic execution of a monadic program. *)
Ltac wp_pure_step :=
  apply wp_stateless; [solve [auto with stateless] | intros ? | intros ?].

Ltac wp_step :=
  lazymatch goal with
  | |- wp (bind _ _) _ _ _ => apply wp_bind
  | |- wp (ret _) _ _ _ => apply wp_ret
  | |- wp (raise _) _ _ _ => apply wp_raise
  | |- wp (rd _) _ _ _ => apply wp_rd
  | |- wp (wr _) _ _ _ => apply wp_wr
  | |- wp (put _) _ _ _ => apply wp_put
  | |- wp (when ?b _) _ _ _ =>
      let Hb := fresh "Hb" in
      destruct b eqn:Hb; unfold when
  | |- wp (if ?b then _ else _) _ _ _ =>
      let Hb := fresh "Hb" in
      destruct b eqn:Hb
  | |- wp _ _ _ _ => wp_pure_step
  end; cbv beta.

Ltac wp_steps := repeat (wp_step; simpl fr_pd; simpl fr_events).

(** ** Decimal facts *)

Lemma Qc_ltb_lt (a b : Qc) : Qc_ltb a b = true <-> (a < b)%Qc.
Proof.
  unfold Qc_ltb, Qclt, Qccompare. rewrite Qlt_alt.
  destruct (this a ?= this b)%Q; split; congruence.
Qed.

Lemma Qc_ltb_ge (a b : Qc) : Qc_ltb a b = false <-> (b <= a)%Qc.
Proof.
  rewrite Qcle_ngt, <- Qc_ltb_lt. destruct (Qc_ltb a b); split; congruence.
Qed.

Lemma finite_Fin d : finite d <-> exists q, d = Fin q.
Proof.
  destruct d as [q|]; unfold finite; simpl; split; eauto; try done.
  intros [q Hq]; done.
Qed.

Lemma wp_snd {S A} (c : M S A) (I : S -> Prop) s :
  wp c (fun _ s' => I s') (fun _ s' => I s') s -> I (snd (c s)).
Proof. unfold wp. by destruct (c s) as [[a|e] s']. Qed.

Lemma wp_when {S} (b : bool) (c : M S unit) Q E s :
  (b = true -> wp c Q E s) -> (b = false -> Q tt s) -> wp (when b c) Q E s.
Proof. intros H1 H2. destruct b; simpl; [by apply H1 | by apply wp_ret, H2]. Qed.

(** Use an already proved specification [H] of the computation at the
    head of the goal. *)
Tactic Notation "wp_use" constr(lem) :=
  eapply wp_mono; [apply lem | intros ? ? ?; cbv beta | intros ? ? ?; cbv beta].

Lemma wp_py_min2 {S} a b Q E (s : S) :
  (forall x y, a = Fin x -> b = Fin y ->
     Q (if Qc_ltb y x then Fin y else Fin x) s) ->
  (a = NaN \/ b = NaN -> E InvalidOperation s) ->
  wp (py_min2 a b) Q E s.
Proof.
  intros HQ HE. destruct a as [x|], b as [y|]; unfold wp, py_min2, bind; simpl; auto.
Qed.

Lemma wp_py_max2 {S} a b Q E (s : S) :
  (forall x y, a = Fin x -> b = Fin y ->
     Q (if Qc_ltb x y then Fin y else Fin x) s) ->
  (a = NaN \/ b = NaN -> E InvalidOperation s) ->
  wp (py_max2 a b) Q E s.
Proof.
  intros HQ HE. destruct a as [x|], b as [y|]; unfold wp, py_max2, bind; simpl; auto.
Qed.

(** Symbolic execution that keeps the value computed by the two-argument
    [min] and [max]. *)
Ltac wp_minmax_steps :=
  repeat (first [ apply wp_py_min2; [intros ? ? ? ? | intros ?]
                | apply wp_py_max2; [intros ? ? ? ? | intros ?]
                | wp_step ];
          simpl fr_pd; simpl fr_events).

(** Order facts on [Qc] are decided on [Q]. *)
Ltac qc_to_q :=
  unfold Qcle, Qclt, Qcplus, Qcminus, Qcopp, Qcmult in *; simpl this in *;
  rewrite ?Qred_correct in *.

Ltac qc_lra := qc_to_q; lra.

(** Name the finite value behind a decimal known to be finite. *)
Ltac fin_subst :=
  repeat match goal with
  | H : Fin _ = Fin ?v |- _ => is_var v; injection H as <-
  end.


(** ** Computations on finite decimals raise nothing *)

Lemma finite_Fin_intro q : finite (Fin q).
Proof. done. Qed.

Lemma finite_Decimal_of_Z n : finite (Decimal_of_Z n).
Proof. done. Qed.

Lemma finite_add a b : finite a -> finite b -> finite (dec_add a b).
Proof. by destruct a, b. Qed.

Lemma finite_sub a b : finite a -> finite b -> finite (dec_sub a b).
Proof. by destruct a, b. Qed.

Lemma finite_mul a b : finite a -> finite b -> finite (dec_mul a b).
Proof. by destruct a, b. Qed.

Lemma finite_neg a : finite a -> finite (dec_neg a).
Proof. by destruct a. Qed.

Lemma Forall_finite_snoc xs x :
  Forall finite xs -> finite x -> Forall finite (xs ++ [x]).
Proof. intros. apply Forall_app_2; [done | by constructor]. Qed.

Lemma snoc_not_nil {A} (xs : list A) x : xs ++ [x] <> [].
Proof. by destruct xs. Qed.

Create HintDb finite.
#[global] Hint Resolve finite_Fin_intro finite_Decimal_of_Z finite_add
  finite_sub finite_mul finite_neg Forall_finite_snoc snoc_not_nil : finite.

Section finite_wp.
Context {S : Type}.
Implicit Types (Q : Decimal -> S -> Prop) (E : exn -> S -> Prop) (s : S).

Lemma wp_dec_lt_finite a b (Q : bool -> S -> Prop) E s :
  finite a -> finite b -> (forall c, Q c s) -> wp (dec_lt a b) Q E s.
Proof. destruct a, b; try done. intros _ _ H. apply H. Qed.

Lemma wp_dec_gt_finite a b (Q : bool -> S -> Prop) E s :
  finite a -> finite b -> (forall c, Q c s) -> wp (dec_gt a b) Q E s.
Proof. intros. by apply wp_dec_lt_finite. Qed.

Lemma Qc_eqb_4 : Qc_eqb (Q2Qc (inject_Z 4)) 0%Qc = false.
Proof. reflexivity. Qed.

Lemma wp_dec_div_4 a Q E s :
  finite a -> (forall d, finite d -> Q d s) ->
  wp (dec_div a (Decimal_of_Z 4)) Q E s.
Proof.
  destruct a as [x|]; [|done]. intros _ H.
  unfold wp, dec_div, Decimal_of_Z. rewrite Qc_eqb_4. by apply H.
Qed.

Lemma wp_dec_lt_Fin x y (Q : bool -> S -> Prop) E s :
  Q (Qc_ltb x y) s -> wp (dec_lt (Fin x) (Fin y)) Q E s.
Proof. exact (fun H => H). Qed.

Lemma wp_dec_gt_Fin x y (Q : bool -> S -> Prop) E s :
  Q (Qc_ltb y x) s -> wp (dec_gt (Fin x) (Fin y)) Q E s.
Proof. exact (fun H => H). Qed.

Lemma wp_dec_lt_cases a b (Q : bool -> S -> Prop) E s :
  (forall x y, a = Fin x -> b = Fin y -> Q (Qc_ltb x y) s) ->
  (a = NaN \/ b = NaN -> E InvalidOperation s) ->
  wp (dec_lt a b) Q E s.
Proof. intros HQ HE. destruct a, b; unfold wp; simpl; auto. Qed.

Lemma wp_dec_gt_cases a b (Q : bool -> S -> Prop) E s :
  (forall x y, a = Fin x -> b = Fin y -> Q (Qc_ltb y x) s) ->
  (a = NaN \/ b = NaN -> E InvalidOperation s) ->
  wp (dec_gt a b) Q E s.
Proof. intros HQ HE. destruct a, b; unfold wp; simpl; auto. Qed.

Lemma wp_dec_div_4_Fin x Q E s :
  Q (Fin (x / Q2Qc 4)%Qc) s -> wp (dec_div (Fin x) (Decimal_of_Z 4)) Q E s.
Proof. intros H. unfold wp, dec_div, Decimal_of_Z. rewrite Qc_eqb_4. exact H. Qed.

Lemma wp_py_min2_finite a b Q E s :
  finite a -> finite b -> (forall d, finite d -> Q d s) ->
  wp (py_min2 a b) Q E s.
Proof.
  destruct a as [x|], b as [y|]; try done. intros _ _ H.
  unfold wp, py_min2, bind; simpl. apply H. by destruct (Qc_ltb y x).
Qed.

Lemma wp_py_max2_finite a b Q E s :
  finite a -> finite b -> (forall d, finite d -> Q d s) ->
  wp (py_max2 a b) Q E s.
Proof.
  destruct a as [x|], b as [y|]; try done. intros _ _ H.
  unfold wp, py_max2, bind; simpl. apply H. by destruct (Qc_ltb x y).
Qed.

(** The scans of [min] and [max] over finite decimals. *)
Lemma min_from_spec xs : forall acc s,
  Forall finite xs ->
  exists m, @min_from S (Fin acc) xs s = (Returned (Fin m), s) /\
            is_min m (Fin acc :: xs).
Proof.
  induction xs as [|x r IH]; intros acc s Hf.
  - exists acc. split; [done|]. split; [by left|].
    intros q Hq. apply list_elem_of_singleton in Hq. injection Hq as ->.
    apply Qcle_refl.
  - apply Forall_cons in Hf as [Hx Hr]. destruct x as [x|]; [|done].
    simpl. unfold bind; simpl.
    destruct (Qc_ltb x acc) eqn:Hc.
    + destruct (IH x s Hr) as (m & Hm & Hin & Hle). exists m. split; [done|].
      apply Qc_ltb_lt in Hc. split; [rewrite elem_of_cons in Hin; rewrite !elem_of_cons; tauto|].
      intros q Hq. rewrite !elem_of_cons in Hq.
      destruct Hq as [Hq|[Hq|Hq]].
      * injection Hq as ->. apply Qcle_trans with x; [|by apply Qclt_le_weak].
        apply Hle. by left.
      * apply Hle. rewrite Hq. by left.
      * apply Hle. by right.
    + destruct (IH acc s Hr) as (m & Hm & Hin & Hle). exists m. split; [done|].
      apply Qc_ltb_ge in Hc. split; [rewrite elem_of_cons in Hin; rewrite !elem_of_cons; tauto|].
      intros q Hq. rewrite !elem_of_cons in Hq.
      destruct Hq as [Hq|[Hq|Hq]].
      * apply Hle. rewrite Hq. by left.
      * injection Hq as ->. apply Qcle_trans with acc; [|done].
        apply Hle. by left.
      * apply Hle. by right.
Qed.

Lemma max_from_spec xs : forall acc s,
  Forall finite xs ->
  exists m, @max_from S (Fin acc) xs s = (Returned (Fin m), s) /\
            is_max m (Fin acc :: xs).
Proof.
  induction xs as [|x r IH]; intros acc s Hf.
  - exists acc. split; [done|]. split; [by left|].
    intros q Hq. apply list_elem_of_singleton in Hq. injection Hq as ->.
    apply Qcle_refl.
  - apply Forall_cons in Hf as [Hx Hr]. destruct x as [x|]; [|done].
    simpl. unfold bind, dec_gt; simpl.
    destruct (Qc_ltb acc x) eqn:Hc.
    + destruct (IH x s Hr) as (m & Hm & Hin & Hle). exists m. split; [done|].
      apply Qc_ltb_lt in Hc. split; [rewrite elem_of_cons in Hin; rewrite !elem_of_cons; tauto|].
      intros q Hq. rewrite !elem_of_cons in Hq.
      destruct Hq as [Hq|[Hq|Hq]].
      * injection Hq as ->. apply Qcle_trans with x; [by apply Qclt_le_weak|].
        apply Hle. by left.
      * apply Hle. rewrite Hq. by left.
      * apply Hle. by right.
    + destruct (IH acc s Hr) as (m & Hm & Hin & Hle). exists m. split; [done|].
      apply Qc_ltb_ge in Hc. split; [rewrite elem_of_cons in Hin; rewrite !elem_of_cons; tauto|].
      intros q Hq. rewrite !elem_of_cons in Hq.
      destruct Hq as [Hq|[Hq|Hq]].
      * apply Hle. rewrite Hq. by left.
      * injection Hq as ->. apply Qcle_trans with acc; [done|].
        apply Hle. by left.
      * apply Hle. by right.
Qed.

Lemma py_min_spec xs s :
  Forall finite xs -> xs <> [] ->
  exists m, @py_min S xs s = (Returned (Fin m), s) /\ is_min m xs.
Proof.
  destruct xs as [|x r]; [done|]. intros Hf _.
  apply Forall_cons in Hf as [Hx Hr]. destruct x as [x|]; [|done].
  by apply min_from_spec.
Qed.

Lemma py_max_spec xs s :
  Forall finite xs -> xs <> [] ->
  exists m, @py_max S xs s = (Returned (Fin m), s) /\ is_max m xs.
Proof.
  destruct xs as [|x r]; [done|]. intros Hf _.
  apply Forall_cons in Hf as [Hx Hr]. destruct x as [x|]; [|done].
  by apply max_from_spec.
Qed.

Lemma wp_py_min_finite xs Q E s :
  Forall finite xs -> xs <> [] ->
  (forall m, is_min m xs -> Q (Fin m) s) -> wp (py_min xs) Q E s.
Proof.
  intros Hf Hne H. destruct (py_min_spec xs s Hf Hne) as (m & Hm & Hmin).
  unfold wp. rewrite Hm. by apply H.
Qed.

Lemma wp_py_max_finite xs Q E s :
  Forall finite xs -> xs <> [] ->
  (forall m, is_max m xs -> Q (Fin m) s) -> wp (py_max xs) Q E s.
Proof.
  intros Hf Hne H. destruct (py_max_spec xs s Hf Hne) as (m & Hm & Hmax).
  unfold wp. rewrite Hm. by apply H.
Qed.

Lemma wp_py_last_snoc xs x Q E s :
  Q x s -> wp (py_last (xs ++ [x])) Q E s.
Proof. intros H. unfold wp, py_last. by rewrite last_snoc. Qed.

Lemma wp_num_Some d Q E s : Q d s -> wp (num (Some d)) Q E s.
Proof. exact (fun H => H). Qed.

Lemma wp_local_Some d Q E s : Q d s -> wp (local (Some d)) Q E s.
Proof. exact (fun H => H). Qed.

Lemma wp_attr_Some e f Q E s : Q (f e) s -> wp (attr (Some e) f) Q E s.
Proof. exact (fun H => H). Qed.

Lemma wp_first_pair_cons p ps (Q : string -> S -> Prop) E s :
  Q p s -> wp (first_pair (p :: ps)) Q E s.
Proof. exact (fun H => H). Qed.
End finite_wp.

(** Symbolic execution on finite decimals: the comparisons and the scans
    return, with a value that is left unspecified but finite. *)
Ltac fin_side := solve [eauto 8 with finite].

Ltac wp_fin_step :=
  lazymatch goal with
  | |- wp (dec_lt _ _) _ _ _ =>
      apply wp_dec_lt_finite; [fin_side | fin_side | intros ?]
  | |- wp (dec_gt _ _) _ _ _ =>
      apply wp_dec_gt_finite; [fin_side | fin_side | intros ?]
  | |- wp (dec_div _ (Decimal_of_Z 4)) _ _ _ =>
      apply wp_dec_div_4; [fin_side | intros ? ?]
  | |- wp (py_min2 _ _) _ _ _ =>
      apply wp_py_min2_finite; [fin_side | fin_side | intros ? ?]
  | |- wp (py_max2 _ _) _ _ _ =>
      apply wp_py_max2_finite; [fin_side | fin_side | intros ? ?]
  | |- wp (py_min _) _ _ _ =>
      apply wp_py_min_finite; [fin_side | fin_side | intros ? ?]
  | |- wp (py_max _) _ _ _ =>
      apply wp_py_max_finite; [fin_side | fin_side | intros ? ?]
  | |- wp (py_last (_ ++ [_])) _ _ _ => apply wp_py_last_snoc
  | |- wp (num (Some _)) _ _ _ => apply wp_num_Some
  | |- wp (local (Some _)) _ _ _ => apply wp_local_Some
  | |- wp (attr (Some _) _) _ _ _ => apply wp_attr_Some
  | |- wp (first_pair (_ :: _)) _ _ _ => apply wp_first_pair_cons
  | |- _ => wp_step
  end; cbv beta.

(** Symbolic execution that keeps the value of the comparisons of
    numbers known to be finite. *)
Ltac wp_value_step :=
  lazymatch goal with
  | |- wp (dec_lt (Fin _) (Fin _)) _ _ _ => apply wp_dec_lt_Fin
  | |- wp (dec_gt (Fin _) (Fin _)) _ _ _ => apply wp_dec_gt_Fin
  | |- wp (dec_div (Fin _) (Decimal_of_Z 4)) _ _ _ => apply wp_dec_div_4_Fin
  | |- _ => wp_fin_step
  end; cbv beta.

(** Symbolic execution where a comparison or a two-argument [min] or
    [max] may meet a NaN: it then raises [InvalidOperation], and
    otherwise both operands are finite. *)
Ltac wp_case_step :=
  lazymatch goal with
  | |- wp (dec_lt _ _) _ _ _ =>
      first [ apply wp_dec_lt_finite; [fin_side | fin_side | intros ?]
            | apply wp_dec_lt_cases; [intros ? ? ? ? | intros ?] ]
  | |- wp (dec_gt _ _) _ _ _ =>
      first [ apply wp_dec_gt_finite; [fin_side | fin_side | intros ?]
            | apply wp_dec_gt_cases; [intros ? ? ? ? | intros ?] ]
  | |- wp (py_min2 _ _) _ _ _ =>
      first [ apply wp_py_min2_finite; [fin_side | fin_side | intros ? ?]
            | apply wp_py_min2; [intros ? ? ? ? | intros ?] ]
  | |- wp (py_max2 _ _) _ _ _ =>
      first [ apply wp_py_max2_finite; [fin_side | fin_side | intros ? ?]
            | apply wp_py_max2; [intros ? ? ? ? | intros ?] ]
  | |- _ => wp_fin_step
  end; cbv beta.

(** ** Computations that only append to the event queue *)

Section constant.
Context {S : Type}.

Lemma constant_ret {A} (a : A) : constant (@ret S A a).
Proof. by exists (Returned a). Qed.

Lemma constant_raise {A} e : constant (@raise S A e).
Proof. by exists (Raised e). Qed.

Lemma constant_bind {A B} (c : M S A) (k : A -> M S B) :
  constant c -> (forall a, constant (k a)) -> constant (bind c k).
Proof.
  intros [r Hc] Hk. destruct r as [a|e].
  - destruct (Hk a) as [r' Hr']. exists r'. intros s. unfold bind.
    by rewrite Hc, Hr'.
  - exists (Raised e). intros s. unfold bind. by rewrite Hc.
Qed.

Lemma constant_dec_lt a b : constant (@dec_lt S a b).
Proof. destruct a, b; apply constant_ret || apply constant_raise. Qed.

Lemma constant_dec_gt a b : constant (@dec_gt S a b).
Proof. apply constant_dec_lt. Qed.

Lemma constant_dec_div a b : constant (@dec_div S a b).
Proof.
  destruct a as [x|], b as [y|]; try apply constant_ret.
  unfold dec_div. destruct (Qc_eqb y 0), (Qc_eqb x 0);
    apply constant_ret || apply constant_raise.
Qed.

Lemma constant_num o : constant (@num S o).
Proof. destruct o; apply constant_ret || apply constant_raise. Qed.
End constant.

Section appends.
Context {P : Type}.

Lemma appends_constant {A} (c : M (Frame P) A) : constant c -> appends c.
Proof. intros [r Hc] pd evs. rewrite !Hc. simpl. by rewrite app_nil_r. Qed.

Lemma appends_bind {A B} (c : M (Frame P) A) (k : A -> M (Frame P) B) :
  appends c -> (forall a, appends (k a)) -> appends (bind c k).
Proof.
  intros Hc Hk pd evs. unfold bind. rewrite (Hc pd evs).
  destruct (c (mkFrame pd [])) as [[a|e] [pd1 ev1]]; simpl; [|done].
  rewrite (Hk a pd1 (evs ++ ev1)), (Hk a pd1 ev1).
  destruct (k a (mkFrame pd1 [])) as [r [pd2 ev2]]; simpl.
  by rewrite app_assoc.
Qed.

Lemma appends_rd {A} (f : P -> A) : appends (rd f).
Proof. intros pd evs. simpl. by rewrite app_nil_r. Qed.

Lemma appends_wr (upd : P -> P) : appends (wr upd).
Proof. intros pd evs. simpl. by rewrite app_nil_r. Qed.

Lemma appends_put sig : appends (@put P sig).
Proof. by intros pd evs. Qed.

Lemma appends_when b (c : M (Frame P) unit) : appends c -> appends (when b c).
Proof. destruct b; [done | intros _; apply appends_constant, constant_ret]. Qed.
End appends.

Create HintDb appends.
#[global] Hint Resolve constant_ret constant_raise constant_dec_lt
  constant_dec_gt constant_dec_div constant_num : appends.
#[global] Hint Resolve appends_rd appends_wr appends_put : appends.

Ltac appends_step :=
  lazymatch goal with
  | |- appends (bind _ _) => apply appends_bind; [|intros ?]
  | |- appends (when _ _) => apply appends_when
  | |- appends (if ?b then _ else _) => destruct b
  | |- constant (bind _ _) => apply constant_bind; [|intros ?]
  | |- appends _ =>
      first [ solve [auto with appends] | apply appends_constant ]
  | |- constant _ => solve [auto with appends]
  end.

Lemma alternating_snoc l x :
  alternating l = true -> last l <> Some x -> alternating (l ++ [x]) = true.
Proof.
  induction l as [|a l IH]; [done|].
  destruct l as [|b r]; intros Halt Hlast.
  - simpl in *. rewrite andb_true_r. apply negb_true_iff, String.eqb_neq.
    congruence.
  - change (negb (String.eqb a b) && alternating ((b :: r) ++ [x]) = true).
    change (negb (String.eqb a b) && alternating (b :: r) = true) in Halt.
    apply andb_true_iff in Halt as [Hab Halt]. rewrite Hab. simpl negb.
    apply IH; [done|]. by rewrite last_cons_cons in Hlast.
Qed.


(** * Properties of PSARWithMACDStrategy *)

Module PSARFacts.
Import PSARWithMACDStrategy.

Lemma same_config_refl s : same_config s s.
Proof. by repeat split. Qed.

Lemma same_config_trans s1 s2 s3 :
  same_config s1 s2 -> same_config s2 s3 -> same_config s1 s3.
Proof. unfold same_config. intros (-> & -> & -> & ->) (-> & -> & -> & ->). done. Qed.

Lemma calculate_signals_config e s : same_config s (snd (calculate_signals e s)).
Proof.
  unfold calculate_signals.
  destruct (String.eqb (type e) "TICK"); [|apply same_config_refl].
  destruct (pairs s) as [|p0 rest] eqn:Hp; simpl; [apply same_config_refl|].
  destruct (String.eqb (instrument e) p0); [|apply same_config_refl].
  destruct (pairs_dict s !! instrument e); [|apply same_config_refl].
  destruct (on_tick s e _) as [r fr]. simpl. by repeat split.
Qed.

Lemma feed_config evs : forall s, same_config s (feed evs s).
Proof.
  induction evs as [|e evs IH]; intros s; simpl; [apply same_config_refl|].
  eapply same_config_trans; [apply calculate_signals_config | apply IH].
Qed.

(** What the state of a pair satisfies at creation and keeps whenever the
    body of [calculate_signals] runs, whatever its outcome, it satisfies
    after every run of events. *)
Section invariant.
Variable C : Self -> Prop.
Variable I : PairState -> Prop.
Hypothesis C_config : forall s s', same_config s s' -> C s -> C s'.
Hypothesis on_tick_keeps :
  forall self e fr, C self -> I (fr_pd fr) -> I (fr_pd (snd (on_tick self e fr))).

Lemma calculate_signals_keeps e s :
  C s -> map_Forall (fun _ => I) (pairs_dict s) ->
  map_Forall (fun _ => I) (pairs_dict (snd (calculate_signals e s))).
Proof.
  intros HC HI. unfold calculate_signals.
  destruct (String.eqb (type e) "TICK"); [|done].
  destruct (pairs s) as [|p0 rest] eqn:Hp; simpl; [done|].
  destruct (String.eqb (instrument e) p0); [|done].
  destruct (pairs_dict s !! instrument e) as [pd|] eqn:Hpd; [|done].
  pose proof (on_tick_keeps s e (mkFrame pd (events s)) HC (HI _ _ Hpd)) as Hk.
  destruct (on_tick s e _) as [r fr]. simpl in *.
  by apply map_Forall_insert_2.
Qed.

Lemma feed_keeps evs : forall s,
  C s -> map_Forall (fun _ => I) (pairs_dict s) ->
  map_Forall (fun _ => I) (pairs_dict (feed evs s)).
Proof.
  induction evs as [|e evs IH]; intros s HC HI; simpl; [done|].
  apply IH.
  - eapply C_config; [apply calculate_signals_config | done].
  - by apply calculate_signals_keeps.
Qed.
End invariant.

Lemma create_pairs_dict_lookup ps a p pd :
  create_pairs_dict ps a !! p = Some pd -> pd = attr_dict a.
Proof.
  unfold create_pairs_dict.
  assert (forall (d : gmap string PairState),
    map_Forall (fun _ x => x = attr_dict a) d ->
    map_Forall (fun _ x => x = attr_dict a)
      (foldl (fun d p => <[p := attr_dict a]> d) d ps)) as H.
  { induction ps as [|q ps IH]; intros d Hd; simpl; [done|].
    apply IH. by apply map_Forall_insert_2. }
  intros Hl. exact (H ∅ (map_Forall_empty _) p pd Hl).
Qed.

Lemma init_pairs_dict ps evs st a m (I : PairState -> Prop) :
  I (attr_dict a) -> map_Forall (fun _ => I) (pairs_dict (__init__ ps evs st a m)).
Proof.
  intros HI p pd Hl. simpl in Hl.
  by rewrite (create_pairs_dict_lookup _ _ _ _ Hl).
Qed.

(** ** Ticks that are ignored *)

(** C8: a tick event whose instrument is not the primary instrument (the
    first entry of the list of pairs) changes nothing in the strategy
    object, the state of every pair and the event queue included, and
    so emits no signal. *)
Theorem other_instrument_ignored (self : Self) (e : Event) (p0 : string)
    (rest : list string) :
  pairs self = p0 :: rest ->
  instrument e <> p0 ->
  calculate_signals e self = (Returned tt, self).
Proof.
  intros Hp Hne. unfold calculate_signals. rewrite Hp. simpl.
  destruct (String.eqb (type e) "TICK"); [|done].
  apply String.eqb_neq in Hne. by rewrite Hne.
Qed.

Lemma other_instrument_ignored_witness :
  calculate_signals other_tick (feed flat_ticks default_strategy)
    = (Returned tt, feed flat_ticks default_strategy).
Proof.
  apply (other_instrument_ignored _ other_tick "EURUSD" []).
  - apply (feed_config flat_ticks default_strategy).
  - discriminate.
Defined.

Lemma on_tick_malformed self e fr :
  malformed e -> on_tick self e fr = (Returned tt, fr).
Proof.
  unfold malformed, on_tick. intros Hm.
  destruct (is_nan (ask_high e)), (is_nan (ask_low e)),
    (is_nan (bid_high e)), (is_nan (bid_low e)); try done.
  destruct Hm as [?|[?|[?|?]]]; done.
Qed.

(** C5: an accepted tick with a NaN in one of its four high/low fields
    returns at once: the strategy object, and with it the whole state of
    the pair and the event queue, is left as it was. *)
Theorem nan_tick_discarded (self : Self) (e : Event) :
  accepted self e ->
  malformed e ->
  snd (calculate_signals e self) = self /\
  (is_Some (pairs_dict self !! instrument e) ->
   fst (calculate_signals e self) = Returned tt).
Proof.
  intros [Hty Hhd] Hm. unfold calculate_signals. rewrite Hty. simpl.
  destruct (pairs self) as [|p0 rest] eqn:Hp; [done|]. simpl in *.
  injection Hhd as ->. rewrite String.eqb_refl.
  destruct (pairs_dict self !! instrument e) as [pd|] eqn:Hpd.
  - rewrite on_tick_malformed by done. simpl. split; [|done].
    rewrite insert_id by done. destruct self; simpl in *. by subst.
  - split; [done|]. by intros [? ?].
Qed.

Lemma nan_tick_discarded_witness :
  snd (calculate_signals nan_tick (feed flat_ticks default_strategy))
    = feed flat_ticks default_strategy /\
  (is_Some (pairs_dict (feed flat_ticks default_strategy) !! instrument nan_tick) ->
   fst (calculate_signals nan_tick (feed flat_ticks default_strategy)) = Returned tt).
Proof.
  apply (nan_tick_discarded (feed flat_ticks default_strategy) nan_tick).
  - split; reflexivity.
  - left. reflexivity.
Defined.


(** ** [long] and [short] are never both set *)

Lemma seed_exclusive self e s :
  exclusive (fr_pd s) ->
  wp (seed self e) (fun _ s' => exclusive (fr_pd s'))
     (fun _ s' => exclusive (fr_pd s')) s.
Proof. intros H. unfold seed. wp_steps; exact H. Qed.

Lemma trend_exclusive self e s :
  exclusive (fr_pd s) ->
  wp (trend self e) (fun _ s' => exclusive (fr_pd s'))
     (fun _ s' => exclusive (fr_pd s')) s.
Proof. intros H. unfold trend, uptrend, downtrend. wp_steps; exact H. Qed.

Lemma signals_exclusive self e sar s :
  exclusive (fr_pd s) ->
  wp (signals self e sar) (fun _ s' => exclusive (fr_pd s'))
     (fun _ s' => exclusive (fr_pd s')) s.
Proof.
  intros H. unfold signals, exclusive in *.
  wp_steps; simpl in *;
    destruct (pd_long (fr_pd s)), (pd_short (fr_pd s)); simpl in *;
    intuition congruence.
Qed.

Lemma finish_exclusive e sar s :
  exclusive (fr_pd s) ->
  wp (finish e sar) (fun _ s' => exclusive (fr_pd s'))
     (fun _ s' => exclusive (fr_pd s')) s.
Proof. intros H. unfold finish. wp_steps; exact H. Qed.

Lemma on_tick_exclusive self e fr :
  exclusive (fr_pd fr) -> exclusive (fr_pd (snd (on_tick self e fr))).
Proof.
  intros H. apply (wp_snd _ (fun s => exclusive (fr_pd s))).
  unfold on_tick. wp_step; [by wp_step|].
  wp_step. wp_step. wp_step; [wp_steps; exact H|].
  wp_step. apply wp_when; [intros _|intros _].
  - wp_use seed_exclusive; [done| |done].
    wp_step. wp_use trend_exclusive; [done| |done].
    wp_step. wp_use signals_exclusive; [done| |done].
    by apply finish_exclusive.
  - wp_step. wp_use trend_exclusive; [done| |done].
    wp_step. wp_use signals_exclusive; [done| |done].
    by apply finish_exclusive.
Qed.

(** C2: whatever the configuration and the events processed since the
    strategy was created, no pair has both [long] and [short] set. *)
Theorem long_short_exclusive (ps : list string) (evs0 : list SignalEvent)
    (st a m : Decimal) (evs : list Event) (p : string) (pd : PairState) :
  pairs_dict (feed evs (__init__ ps evs0 st a m)) !! p = Some pd ->
  exclusive pd.
Proof.
  revert p pd.
  apply (feed_keeps (fun _ => True) exclusive); [done| |done|].
  - intros self e fr _. apply on_tick_exclusive.
  - apply init_pairs_dict. unfold exclusive. simpl. intros [? ?]. done.
Qed.

Lemma long_short_exclusive_witness :
  exists pd,
    pairs_dict (feed (flat_ticks ++ [rising_tick]) default_strategy) !! "EURUSD"
      = Some pd /\
    exclusive pd.
Proof.
  eexists. split; [vm_compute; reflexivity|].
  apply (long_short_exclusive ["EURUSD"] [] default_step default_af default_af
           (flat_ticks ++ [rising_tick]) "EURUSD").
  vm_compute. reflexivity.
Defined.


(** ** The bound on the acceleration factor *)

Section af_bound.
Variables x y z : Qc.
Hypothesis step_nonneg : (0 <= x)%Qc.
Hypothesis af_lower : (- z <= y)%Qc.
Hypothesis af_upper : (y <= z)%Qc.

Local Abbreviation af_config := (af_config x y z).
Local Abbreviation af_within := (af_within z).

Lemma af_within_initial : af_within (attr_dict (Fin y)).
Proof. exists y. by repeat split. Qed.

Lemma af_within_neg : (- z <= - y)%Qc /\ (- y <= z)%Qc.
Proof. split; qc_lra. Qed.

Lemma af_within_min a : (- z <= a)%Qc -> (a <= z)%Qc ->
  exists b, (if Qc_ltb z (a + x) then Fin z else Fin (a + x)%Qc) = Fin b /\
            (- z <= b)%Qc /\ (b <= z)%Qc.
Proof.
  intros Hl Hu. destruct (Qc_ltb z (a + x)) eqn:Hc.
  - exists z. repeat split; qc_lra.
  - apply Qc_ltb_ge in Hc. exists (a + x)%Qc. repeat split; [qc_lra | done].
Qed.

Lemma af_within_max a : (- z <= a)%Qc -> (a <= z)%Qc ->
  exists b, (if Qc_ltb (a - x) (- z) then Fin (- z)%Qc else Fin (a - x)%Qc) = Fin b /\
            (- z <= b)%Qc /\ (b <= z)%Qc.
Proof.
  intros Hl Hu. destruct (Qc_ltb (a - x) (- z)) eqn:Hc.
  - exists (- z)%Qc. repeat split; qc_lra.
  - apply Qc_ltb_ge in Hc. exists (a - x)%Qc. repeat split; [done | qc_lra].
Qed.

Lemma seed_af self e s :
  af_config self -> af_within (fr_pd s) ->
  wp (seed self e) (fun _ s' => af_within (fr_pd s'))
     (fun _ s' => af_within (fr_pd s')) s.
Proof.
  intros (Hst & Haf & Hmax) H. unfold seed.
  wp_steps; try exact H; unfold PSARWithMACDStrategy.af_within; simpl; rewrite Haf; simpl.
  all: first [ exists y; by repeat split
             | exists (- y)%Qc; split; [done | apply af_within_neg] ].
Qed.

Lemma uptrend_af self e s :
  af_config self -> af_within (fr_pd s) ->
  wp (uptrend self e) (fun _ s' => af_within (fr_pd s'))
     (fun _ s' => af_within (fr_pd s')) s.
Proof.
  intros (Hst & Haf & Hmax) H. unfold uptrend.
  wp_minmax_steps; try exact H; unfold PSARWithMACDStrategy.af_within; simpl;
    rewrite ?Haf; simpl;
    try (exists (- y)%Qc; split; [done | apply af_within_neg]).
  all: destruct H as (q & Ha & Hl & Hu); simpl in *.
  all: rewrite Ha, Hst, Hmax in *; simpl in *; fin_subst.
  all: by apply af_within_min.
Qed.

Lemma downtrend_af self e s :
  af_config self -> af_within (fr_pd s) ->
  wp (downtrend self e) (fun _ s' => af_within (fr_pd s'))
     (fun _ s' => af_within (fr_pd s')) s.
Proof.
  intros (Hst & Haf & Hmax) H. unfold downtrend.
  wp_minmax_steps; try exact H; unfold PSARWithMACDStrategy.af_within; simpl;
    rewrite ?Haf; simpl;
    try (exists y; by repeat split).
  all: destruct H as (q & Ha & Hl & Hu); simpl in *.
  all: rewrite Ha, Hst, Hmax in *; simpl in *; fin_subst.
  all: by apply af_within_max.
Qed.

Lemma trend_af self e s :
  af_config self -> af_within (fr_pd s) ->
  wp (trend self e) (fun _ s' => af_within (fr_pd s'))
     (fun _ s' => af_within (fr_pd s')) s.
Proof.
  intros HC H. unfold trend. wp_step. wp_step. wp_step.
  wp_step; [|wp_step].
  - wp_step. wp_use uptrend_af; [done|done| |done]. wp_steps; done.
  - wp_step. wp_use downtrend_af; [done|done| |done]. wp_steps; done.
  - wp_steps; done.
Qed.

Lemma signals_af self e sar s :
  af_within (fr_pd s) ->
  wp (signals self e sar) (fun _ s' => af_within (fr_pd s'))
     (fun _ s' => af_within (fr_pd s')) s.
Proof. intros H. unfold signals. wp_steps; exact H. Qed.

Lemma finish_af e sar s :
  af_within (fr_pd s) ->
  wp (finish e sar) (fun _ s' => af_within (fr_pd s'))
     (fun _ s' => af_within (fr_pd s')) s.
Proof. intros H. unfold finish. wp_steps; exact H. Qed.

Lemma on_tick_af self e fr :
  af_config self -> af_within (fr_pd fr) -> af_within (fr_pd (snd (on_tick self e fr))).
Proof.
  intros HC H. apply (wp_snd _ (fun s => af_within (fr_pd s))).
  unfold on_tick. wp_step; [by wp_step|].
  wp_step. wp_step. wp_step; [wp_steps; exact H|].
  wp_step. apply wp_when; [intros _|intros _].
  - wp_use seed_af; [done|done| |done].
    wp_step. wp_use trend_af; [done|done| |done].
    wp_step. wp_use signals_af; [done| |done].
    by apply finish_af.
  - wp_step. wp_use trend_af; [done|done| |done].
    wp_step. wp_use signals_af; [done| |done].
    by apply finish_af.
Qed.
End af_bound.


Lemma af_config_same_config x y z s s' :
  same_config s s' -> af_config x y z s -> af_config x y z s'.
Proof. unfold same_config, af_config. intros (_ & -> & -> & ->). done. Qed.

Lemma af_within_bounded z pd : af_within z pd <-> af_bounded (Fin z) pd.
Proof.
  unfold af_within, af_bounded, dec_abs_le. split.
  - intros (a & -> & Hl & Hu). by apply Qcabs_Qcle_condition.
  - destruct (pd_af pd) as [a|]; [|done].
    intros H. exists a. split; [done|]. by apply Qcabs_Qcle_condition.
Qed.




(** A negative step breaks the bound as well: with [step = -1] and
    [af = af_max = 1/5], a new high in an uptrend brings the factor to
    [-4/5]. *)
Lemma acceleration_factor_unbounded_step :
  exists pd,
    pairs_dict (feed [tick 0 11 11 11 11 11 11; tick 1 11 11 11 10 12 11]
                  (__init__ ["EURUSD"] [] (dec (-1) 1) (dec 1 5) (dec 1 5)))
      !! "EURUSD" = Some pd /\
    ~ af_bounded (dec 1 5) pd.
Proof.
  eexists. split; [vm_compute; reflexivity|].
  unfold af_bounded, dec_abs_le, Qcle. vm_compute. intros H. by apply H.
Qed.


(** ** The invariant of the state of a pair *)

Ltac pd_simpl :=
  cbn [fr_pd fr_events pd_af pd_direction pd_ep pd_invested pd_long pd_short
       pd_ticks pd_highs pd_last_event pd_lows pd_prior_sar
       set_af set_direction set_ep set_long set_short set_ticks set_highs
       set_last_event set_lows set_prior_sar] in *.

Ltac psar_steps :=
  cbv zeta;
  repeat (wp_case_step; pd_simpl; cbn [Z.eqb Z.ltb Z.compare Pos.eqb Z.opp]).

Lemma finite_Some_Fin d : finite d -> exists q, Some d = Some (Fin q).
Proof. destruct d as [q|]; [by exists q | done]. Qed.

Lemma guard_finite e :
  is_nan (ask_high e) || is_nan (ask_low e) || is_nan (bid_high e)
    || is_nan (bid_low e) = false ->
  finite_event e.
Proof.
  unfold finite_event, finite.
  destruct (is_nan (ask_high e)), (is_nan (ask_low e)),
    (is_nan (bid_high e)), (is_nan (bid_low e)); done.
Qed.

#[local] Hint Resolve finite_Some_Fin : finite.

Ltac open_state s :=
  let a := fresh "a" in let d := fresh "d" in let ep := fresh "ep" in
  let inv := fresh "inv" in let lg := fresh "lg" in let sh := fresh "sh" in
  let tk := fresh "tk" in let hs := fresh "hs" in let le := fresh "le" in
  let ls := fresh "ls" in let ps := fresh "ps" in let evs := fresh "evs" in
  destruct s as [[a d ep inv lg sh tk hs le ls ps] evs]; pd_simpl.

Ltac wf_leaf :=
  unfold grounded, seeded in *; pd_simpl;
  repeat match goal with
  | |- _ /\ _ => split
  | |- forall _, _ => intro
  | H : Some _ = Some _ |- _ => injection H as <-
  end;
  try solve [ done | lia | eauto 6 with finite
            | match goal with
              | H : ?x = Fin _ |- _ => rewrite H; eauto 6 with finite
              end ].

(** The branch of tick 1 returns whatever the configuration. *)
Lemma seed_grounded self e s :
  finite_event e ->
  grounded (fr_pd s) -> 1 <= pd_ticks (fr_pd s) ->
  wp (seed self e)
     (fun _ s' => grounded (fr_pd s') /\ seeded (fr_pd s') /\
                  pd_ticks (fr_pd s') = pd_ticks (fr_pd s) /\
                  (pd_af (fr_pd s') = af self \/
                   pd_af (fr_pd s') = dec_neg (af self)))
     (fun _ _ => False) s.
Proof.
  intros (Hah & Hal & Hbh & Hbl) Hs Ht.
  open_state s. destruct Hs as (H0 & Hhs & Hls & Hep & Hps & Hle).
  pd_simpl. destruct (Hle Ht) as (le0 & -> & Hah0 & Hal0 & Hbh0 & Hbl0).
  unfold seed. psar_steps.
  all: wf_leaf.
Qed.

(** The trend branches return a finite [sar], or raise
    [InvalidOperation] on a NaN of the configuration. *)
Lemma trend_grounded self e s :
  finite_event e ->
  grounded (fr_pd s) -> seeded (fr_pd s) ->
  wp (trend self e)
     (fun r s' => (exists q, r = Some (Fin q)) /\
                  grounded (fr_pd s') /\ seeded (fr_pd s') /\
                  pd_ticks (fr_pd s') = pd_ticks (fr_pd s))
     (fun ex s' => ex = InvalidOperation /\
                   grounded (fr_pd s') /\ seeded (fr_pd s') /\
                   pd_ticks (fr_pd s') = pd_ticks (fr_pd s)) s.
Proof.
  intros (Hah & Hal & Hbh & Hbl) Hs Hsd.
  open_state s. destruct Hs as (H0 & Hhs & Hls & Hep & Hps & Hle).
  destruct Hsd as (Hd & Hhne & Hlne & q & Hq). pd_simpl. subst ps.
  unfold trend, uptrend, downtrend, in_uptrend, in_downtrend.
  destruct Hd as [-> | ->]; psar_steps.
  all: wf_leaf.
Qed.

(** With finite numbers in the configuration and in the factor, they
    return. *)
Lemma trend_returns self e s :
  finite_config self -> finite_event e ->
  grounded (fr_pd s) -> finite (pd_af (fr_pd s)) -> seeded (fr_pd s) ->
  wp (trend self e) (fun r _ => exists q, r = Some (Fin q)) (fun _ _ => False) s.
Proof.
  intros (Hst & Haf & Hmax) (Hah & Hal & Hbh & Hbl) Hs Ha Hsd.
  open_state s. destruct Hs as (H0 & Hhs & Hls & Hep & Hps & Hle).
  destruct Hsd as (Hd & Hhne & Hlne & q & Hq). pd_simpl. subst ps.
  unfold trend, uptrend, downtrend, in_uptrend, in_downtrend.
  destruct Hd as [-> | ->]; psar_steps.
  all: wf_leaf.
Qed.

Lemma signals_grounded self e q s :
  grounded (fr_pd s) -> seeded (fr_pd s) ->
  wp (signals self e (Some (Fin q)))
     (fun r s' => r = Fin q /\ grounded (fr_pd s') /\ seeded (fr_pd s') /\
                  pd_ticks (fr_pd s') = pd_ticks (fr_pd s))
     (fun _ s' => grounded (fr_pd s') /\ seeded (fr_pd s') /\
                  pd_ticks (fr_pd s') = pd_ticks (fr_pd s)) s.
Proof.
  intros Hs Hsd. unfold signals.
  wp_step. apply wp_local_Some. wp_steps.
  all: unfold grounded, seeded in *; pd_simpl; done.
Qed.

Lemma finish_tracked e q s :
  finite_event e -> grounded (fr_pd s) -> seeded (fr_pd s) ->
  wp (finish e (Fin q))
     (fun _ s' => tracked (fr_pd s')) (fun _ _ => False) s.
Proof.
  intros He Hs Hsd. open_state s.
  destruct Hs as (H0 & Hhs & Hls & Hep & Hps & Hle).
  destruct Hsd as (Hd & Hhne & Hlne & q' & Hq). pd_simpl.
  unfold finish, tracked. psar_steps. wf_leaf.
Qed.

Lemma tracked_initial a : tracked (attr_dict a).
Proof.
  unfold tracked, grounded, seeded, attr_dict; simpl.
  repeat split; try done; try lia.
Qed.

Lemma on_tick_tracked self e fr :
  tracked (fr_pd fr) -> tracked (fr_pd (snd (on_tick self e fr))).
Proof.
  intros [Hs Hsd]. apply (wp_snd _ (fun s => tracked (fr_pd s))).
  unfold on_tick.
  destruct (is_nan (ask_high e) || is_nan (ask_low e) ||
            is_nan (bid_high e) || is_nan (bid_low e)) eqn:Hg;
    [by apply wp_ret|].
  apply guard_finite in Hg.
  wp_step. wp_step. wp_step.
  { apply Z.eqb_eq in Hb. wp_steps. rewrite Hb in *.
    destruct Hs as (H0 & Hhs & Hls & Hep & Hps & Hle).
    unfold tracked, grounded. pd_simpl.
    repeat split; try done; try lia. by exists e. }
  apply Z.eqb_neq in Hb.
  assert (1 <= pd_ticks (fr_pd fr)) as Ht by (destruct Hs; lia).
  wp_step. apply wp_when; intros Hb1.
  - wp_use seed_grounded; [done..| |done].
    destruct H as (Hs1 & Hsd1 & Ht1 & _).
    wp_step. wp_use trend_grounded; [done..| |].
    + destruct H as ((q & ->) & Hs2 & Hsd2 & Ht2).
      wp_step. wp_use signals_grounded; [done..| |].
      * destruct H as (-> & Hs3 & Hsd3 & Ht3). wp_use finish_tracked; done.
      * destruct H as (Hs3 & Hsd3 & Ht3). split; [done|]. by intros _.
    + destruct H as (_ & Hs2 & Hsd2 & Ht2). split; [done|]. by intros _.
  - apply Z.eqb_neq in Hb1.
    assert (seeded (fr_pd fr)) as Hsd0 by (apply Hsd; lia).
    wp_step. wp_use trend_grounded; [done..| |].
    + destruct H as ((q & ->) & Hs2 & Hsd2 & Ht2).
      wp_step. wp_use signals_grounded; [done..| |].
      * destruct H as (-> & Hs3 & Hsd3 & Ht3). wp_use finish_tracked; done.
      * destruct H as (Hs3 & Hsd3 & Ht3). split; [done|]. by intros _.
    + destruct H as (_ & Hs2 & Hsd2 & Ht2). split; [done|]. by intros _.
Qed.

Lemma reachable_tracked ps evs0 st a m evs p pd :
  pairs_dict (feed evs (__init__ ps evs0 st a m)) !! p = Some pd ->
  tracked pd.
Proof.
  revert p pd.
  apply (feed_keeps (fun _ => True) tracked); [done| |done|].
  - intros self e fr _. apply on_tick_tracked.
  - apply init_pairs_dict. apply tracked_initial.
Qed.

(** The acceleration factor is finite when the configuration is. *)
Lemma finite_config_same_config s s' :
  same_config s s' -> finite_config s -> finite_config s'.
Proof. unfold same_config, finite_config. intros (_ & -> & -> & ->). done. Qed.

Lemma seed_af_finite self e s :
  finite_config self -> finite (pd_af (fr_pd s)) ->
  wp (seed self e) (fun _ s' => finite (pd_af (fr_pd s')))
     (fun _ s' => finite (pd_af (fr_pd s'))) s.
Proof.
  intros (Hst & Haf & Hmax) Ha. unfold seed.
  wp_steps; pd_simpl; try done; eauto with finite.
Qed.

Lemma trend_af_finite self e s :
  finite_config self -> finite (pd_af (fr_pd s)) ->
  wp (trend self e) (fun _ s' => finite (pd_af (fr_pd s')))
     (fun _ s' => finite (pd_af (fr_pd s'))) s.
Proof.
  intros (Hst & Haf & Hmax) Ha. unfold trend, uptrend, downtrend.
  cbv zeta. wp_minmax_steps; pd_simpl; try done; eauto with finite.
  all: by destruct (Qc_ltb _ _).
Qed.

Lemma signals_af_frame self e sar s :
  wp (signals self e sar) (fun _ s' => pd_af (fr_pd s') = pd_af (fr_pd s))
     (fun _ s' => pd_af (fr_pd s') = pd_af (fr_pd s)) s.
Proof. unfold signals. wp_steps; done. Qed.

Lemma finish_af_frame e sar s :
  wp (finish e sar) (fun _ s' => pd_af (fr_pd s') = pd_af (fr_pd s))
     (fun _ s' => pd_af (fr_pd s') = pd_af (fr_pd s)) s.
Proof. unfold finish. wp_steps; done. Qed.

Lemma on_tick_af_finite self e fr :
  finite_config self -> finite (pd_af (fr_pd fr)) ->
  finite (pd_af (fr_pd (snd (on_tick self e fr)))).
Proof.
  intros HC Ha. apply (wp_snd _ (fun s => finite (pd_af (fr_pd s)))).
  assert (forall sar s, finite (pd_af (fr_pd s)) ->
    wp (s0 <- signals self e sar;; finish e s0)
       (fun _ s' => finite (pd_af (fr_pd s')))
       (fun _ s' => finite (pd_af (fr_pd s'))) s) as Hrest.
  { intros sar s Hs. wp_step.
    wp_use signals_af_frame; [|by rewrite H].
    wp_use finish_af_frame; by rewrite H0, H. }
  unfold on_tick. wp_step; [by wp_step|].
  wp_step. wp_step. wp_step; [wp_steps; exact Ha|].
  wp_step. apply wp_when; [intros _|intros _].
  - wp_use seed_af_finite; [done|done| |done].
    wp_step. wp_use trend_af_finite; [done|done| |done]. by apply Hrest.
  - wp_step. wp_use trend_af_finite; [done|done| |done]. by apply Hrest.
Qed.

Lemma reachable_af_finite ps evs0 st a m evs p pd :
  finite st -> finite a -> finite m ->
  pairs_dict (feed evs (__init__ ps evs0 st a m)) !! p = Some pd ->
  finite (pd_af pd).
Proof.
  intros Hst Ha Hm. revert p pd.
  apply (feed_keeps finite_config (fun pd => finite (pd_af pd))).
  - apply finite_config_same_config.
  - intros self e fr. apply on_tick_af_finite.
  - done.
  - by apply init_pairs_dict.
Qed.


(** ** The steady state and the seeding tick *)



Lemma seed_spec self e prev s :
  finite_event e -> finite_event prev ->
  Forall finite (pd_highs (fr_pd s)) -> Forall finite (pd_lows (fr_pd s)) ->
  pd_last_event (fr_pd s) = Some prev ->
  wp (seed self e)
     (fun _ s' =>
        fr_events s' = fr_events s /\
        pd_prior_sar (fr_pd s') = Some (mean_high_low e) /\
        (closer_to_high (mean_high_low e) e ->
         seeded_with 1 (ask_high prev) (ask_low prev) (af self) (fr_pd s) (fr_pd s') /\
         exists mx, pd_ep (fr_pd s') = Fin mx /\ is_max mx (pd_highs (fr_pd s'))) /\
        (~ closer_to_high (mean_high_low e) e ->
         seeded_with (-1) (bid_high prev) (bid_low prev) (dec_neg (af self))
           (fr_pd s) (fr_pd s') /\
         exists mn, pd_ep (fr_pd s') = Fin mn /\ is_min mn (pd_lows (fr_pd s'))))
     (fun _ _ => False) s.
Proof.
  intros (Hah & Hal & Hbh & Hbl) (Hah0 & Hal0 & Hbh0 & Hbl0) Hhs Hls Hle.
  open_state s. subst le.
  unfold seed, mean_high_low, closer_to_high, seeded_with.
  destruct (ask_high e) as [ah|], (ask_low e) as [al|],
    (bid_high e) as [bh|], (bid_low e) as [bl|]; try done.
  cbn [dec_add dec_sub].
  repeat (wp_value_step; pd_simpl; cbn [dec_add dec_sub]).
  - apply Qc_ltb_lt in Hb. repeat split; try done; by eauto.
  - apply Qc_ltb_ge in Hb. apply Qcle_ngt in Hb.
    repeat split; try done; by eauto.
Qed.




(** ** The reversal of a downtrend *)

Lemma downtrend_keeps_direction self e s :
  wp (downtrend self e)
     (fun _ s' => pd_direction (fr_pd s') = pd_direction (fr_pd s))
     (fun _ s' => pd_direction (fr_pd s') = pd_direction (fr_pd s)) s.
Proof. unfold downtrend. cbv zeta. repeat (wp_step; pd_simpl); done. Qed.

(** No tick processed in a downtrend leaves the trend branches with an
    uptrend: the branch of lines 126-138 never assigns the direction. *)
Lemma trend_stays_downtrend self e s :
  in_downtrend (fr_pd s) e = true ->
  in_downtrend (fr_pd (snd (trend self e s))) e = true.
Proof.
  intros Hd. apply (wp_snd _ (fun s' => in_downtrend (fr_pd s') e = true)).
  unfold trend, in_uptrend, in_downtrend in *.
  wp_step. wp_step. wp_step. cbv [id].
  destruct (0 <? pd_direction (fr_pd s)) eqn:Hu;
    [apply Z.ltb_lt in Hu; apply Z.ltb_lt in Hd; lia|].
  rewrite Hd.
  wp_step. wp_use downtrend_keeps_direction; [|by rewrite H].
  repeat (wp_step; pd_simpl); [done | by rewrite H].
Qed.

(** C1 fails on the code: after two flat ticks the pair is in a
    downtrend; on the third tick the largest high of the history, 11,
    exceeds the indicator computed on that tick, 10; yet after the tick
    the direction is still -1, while the factor is [+af]. *)
Theorem downtrend_reversal_keeps_downtrend :
  exists pd pd' sar mx,
    pairs_dict (feed flat_ticks default_strategy) !! "EURUSD" = Some pd /\
    pd_ticks pd = 2 /\
    in_downtrend pd rising_tick = true /\
    downtrend_sar pd = Fin sar /\
    is_max mx (pd_highs pd ++ [bid_high rising_tick]) /\
    (sar < mx)%Qc /\
    calculate_signals rising_tick (feed flat_ticks default_strategy)
      = (Returned tt, feed (flat_ticks ++ [rising_tick]) default_strategy) /\
    pairs_dict (feed (flat_ticks ++ [rising_tick]) default_strategy) !! "EURUSD"
      = Some pd' /\
    pd_direction pd' = -1 /\
    pd_af pd' = af default_strategy.
Proof.
  eexists _, _, _, (Q2Qc 11).
  split; [vm_compute; reflexivity|].
  split; [reflexivity|]. split; [reflexivity|].
  split; [vm_compute; reflexivity|].
  split; [|split; [|split; [|split; [|split]]]].
  - split; [do 2 right; left; reflexivity|].
    intros q Hq. simpl in Hq. rewrite !elem_of_cons in Hq.
    destruct Hq as [Hq|[Hq|[Hq|Hq]]]; [..|by apply elem_of_nil in Hq];
      injection Hq as ->; unfold Qcle; vm_compute; discriminate.
  - unfold Qclt. vm_compute. reflexivity.
  - vm_compute. reflexivity.
  - vm_compute. reflexivity.
  - reflexivity.
  - reflexivity.
Qed.

(** ** The dictionary of pairs *)

Lemma wp_conj {S A} (c : M S A) (Q1 Q2 : A -> S -> Prop)
    (E1 E2 : exn -> S -> Prop) s :
  wp c Q1 E1 s -> wp c Q2 E2 s ->
  wp c (fun a s' => Q1 a s' /\ Q2 a s') (fun e s' => E1 e s' /\ E2 e s') s.
Proof. unfold wp. destruct (c s) as [[a|e] s']; auto. Qed.

Lemma create_pairs_dict_from ps a p : forall d : gmap string PairState,
  foldl (fun d p => <[p := attr_dict a]> d) d ps !! p =
    if bool_decide (p ∈ ps) then Some (attr_dict a) else d !! p.
Proof.
  induction ps as [|q ps IH]; intros d; simpl; [done|].
  rewrite IH. destruct (decide (p ∈ ps)) as [Hin|Hin].
  - rewrite !bool_decide_eq_true_2; [done | by right | done].
  - rewrite (bool_decide_eq_false_2 _ Hin).
    destruct (decide (p = q)) as [->|Hne].
    + rewrite lookup_insert_eq, bool_decide_eq_true_2; [done | by left].
    + rewrite lookup_insert_ne by done.
      rewrite bool_decide_eq_false_2; [done|].
      rewrite elem_of_cons. tauto.
Qed.

(** X1: [create_pairs_dict] tracks every pair of the list, and no other
    instrument, each with its own copy of the initial state; a pair
    listed twice is tracked once. *)
Theorem create_pairs_dict_tracks_pairs (ps : list string) (a : Decimal)
    (p : string) :
  create_pairs_dict ps a !! p =
    if bool_decide (p ∈ ps) then Some (attr_dict a) else None.
Proof. unfold create_pairs_dict. by rewrite create_pairs_dict_from. Qed.

Lemma calculate_signals_other_pair e s p :
  head (pairs s) <> Some p ->
  pairs_dict (snd (calculate_signals e s)) !! p = pairs_dict s !! p.
Proof.
  intros Hp. unfold calculate_signals.
  destruct (String.eqb (type e) "TICK"); [|done].
  destruct (pairs s) as [|p0 rest] eqn:Hps; simpl; [done|].
  destruct (String.eqb (instrument e) p0) eqn:Hi; [|done].
  apply String.eqb_eq in Hi.
  destruct (pairs_dict s !! instrument e); [|done].
  destruct (on_tick s e _) as [r fr]. simpl.
  apply lookup_insert_ne. simpl in Hp. congruence.
Qed.

(** X2: only the first pair of the list is ever processed: whatever the
    events, the state of every other pair is what it was. *)
Theorem only_primary_pair_updated (self : Self) (evs : list Event)
    (p : string) :
  head (pairs self) <> Some p ->
  pairs_dict (feed evs self) !! p = pairs_dict self !! p.
Proof.
  revert self. induction evs as [|e evs IH]; intros self Hp; simpl; [done|].
  fold (feed evs (snd (calculate_signals e self))).
  rewrite IH.
  - by apply calculate_signals_other_pair.
  - destruct (calculate_signals_config e self) as (-> & _). done.
Qed.

Lemma only_primary_pair_updated_witness :
  pairs_dict (feed (flat_ticks ++ [rising_tick]) two_pair_strategy) !! "GBPUSD"
    = pairs_dict two_pair_strategy !! "GBPUSD".
Proof.
  apply (only_primary_pair_updated two_pair_strategy
           (flat_ticks ++ [rising_tick]) "GBPUSD").
  discriminate.
Defined.

Lemma calculate_signals_tracked_pairs e s p :
  is_Some (pairs_dict (snd (calculate_signals e s)) !! p) <->
  is_Some (pairs_dict s !! p).
Proof.
  unfold calculate_signals.
  destruct (String.eqb (type e) "TICK"); [|done].
  destruct (pairs s) as [|p0 rest] eqn:Hps; simpl; [done|].
  destruct (String.eqb (instrument e) p0) eqn:Hi; [|done].
  destruct (pairs_dict s !! instrument e) eqn:Hpd; [|done].
  destruct (on_tick s e _) as [r fr]. simpl.
  destruct (decide (instrument e = p)) as [<-|Hne].
  - rewrite lookup_insert_eq, Hpd. split; eauto.
  - by rewrite lookup_insert_ne.
Qed.

Lemma feed_tracked_pairs evs : forall s p,
  is_Some (pairs_dict (feed evs s) !! p) <-> is_Some (pairs_dict s !! p).
Proof.
  induction evs as [|e evs IH]; intros s p; simpl; [done|].
  fold (feed evs (snd (calculate_signals e s))).
  rewrite IH. apply calculate_signals_tracked_pairs.
Qed.

Lemma reachable_primary_tracked p0 rest evs0 st a m evs :
  is_Some (pairs_dict (feed evs (__init__ (p0 :: rest) evs0 st a m)) !! p0).
Proof.
  apply feed_tracked_pairs. unfold __init__, create_pairs_dict. cbn [pairs_dict].
  rewrite create_pairs_dict_from, bool_decide_eq_true_2; [done | by left].
Qed.

(** ** What each part of the body leaves alone *)

Lemma seed_frame self e s :
  wp (seed self e)
     (fun _ s' => fr_events s' = fr_events s /\
                  pd_long (fr_pd s') = pd_long (fr_pd s) /\
                  pd_short (fr_pd s') = pd_short (fr_pd s) /\
                  pd_ticks (fr_pd s') = pd_ticks (fr_pd s) /\
                  (length (pd_highs (fr_pd s)) <= length (pd_highs (fr_pd s')))%nat)
     (fun _ s' => fr_events s' = fr_events s /\
                  pd_long (fr_pd s') = pd_long (fr_pd s) /\
                  pd_short (fr_pd s') = pd_short (fr_pd s) /\
                  pd_ticks (fr_pd s') = pd_ticks (fr_pd s) /\
                  (length (pd_highs (fr_pd s)) <= length (pd_highs (fr_pd s')))%nat) s.
Proof.
  unfold seed. repeat (wp_step; pd_simpl).
  all: repeat split; try done; rewrite ?length_app; simpl; lia.
Qed.

Lemma trend_frame self e s :
  wp (trend self e)
     (fun _ s' => fr_events s' = fr_events s /\
                  pd_long (fr_pd s') = pd_long (fr_pd s) /\
                  pd_short (fr_pd s') = pd_short (fr_pd s) /\
                  pd_ticks (fr_pd s') = pd_ticks (fr_pd s) /\
                  (length (pd_highs (fr_pd s)) <= length (pd_highs (fr_pd s')))%nat)
     (fun _ s' => fr_events s' = fr_events s /\
                  pd_long (fr_pd s') = pd_long (fr_pd s) /\
                  pd_short (fr_pd s') = pd_short (fr_pd s) /\
                  pd_ticks (fr_pd s') = pd_ticks (fr_pd s) /\
                  (length (pd_highs (fr_pd s)) <= length (pd_highs (fr_pd s')))%nat) s.
Proof.
  unfold trend, uptrend, downtrend. cbv zeta. repeat (wp_step; pd_simpl).
  all: repeat split; try done; rewrite ?length_app; simpl; lia.
Qed.

Lemma signals_frame self e sar s :
  wp (signals self e sar)
     (fun _ s' => pd_direction (fr_pd s') = pd_direction (fr_pd s) /\
                  pd_ticks (fr_pd s') = pd_ticks (fr_pd s) /\
                  pd_highs (fr_pd s') = pd_highs (fr_pd s))
     (fun _ s' => pd_direction (fr_pd s') = pd_direction (fr_pd s) /\
                  pd_ticks (fr_pd s') = pd_ticks (fr_pd s) /\
                  pd_highs (fr_pd s') = pd_highs (fr_pd s)) s.
Proof. unfold signals. repeat (wp_step; pd_simpl); done. Qed.

Lemma finish_frame e sar s :
  wp (finish e sar)
     (fun _ s' => fr_events s' = fr_events s /\
                  pd_long (fr_pd s') = pd_long (fr_pd s) /\
                  pd_short (fr_pd s') = pd_short (fr_pd s) /\
                  pd_direction (fr_pd s') = pd_direction (fr_pd s) /\
                  pd_ticks (fr_pd s') = pd_ticks (fr_pd s) + 1)
     (fun _ _ => False) s.
Proof. unfold finish. repeat (wp_step; pd_simpl); done. Qed.

(** The signal tests raise nothing but [InvalidOperation], on a NaN
    ask or bid price. *)
Lemma signals_invalid self e q s :
  pairs self <> [] ->
  wp (signals self e (Some (Fin q)))
     (fun r _ => r = Fin q)
     (fun ex _ => ex = InvalidOperation) s.
Proof.
  intros Hp. destruct (pairs self) as [|p0 rest] eqn:Hps; [done|].
  unfold signals. rewrite Hps. psar_steps; done.
Qed.

Lemma signals_returns self e q s :
  pairs self <> [] -> finite (ask e) -> finite (bid e) ->
  wp (signals self e (Some (Fin q))) (fun r _ => r = Fin q) (fun _ _ => False) s.
Proof.
  intros Hp Ha Hb. destruct (pairs self) as [|p0 rest] eqn:Hps; [done|].
  unfold signals. rewrite Hps. psar_steps; done.
Qed.

Lemma signals_nan_ask self e q s :
  ask e = NaN ->
  signals self e (Some (Fin q)) s = (Raised InvalidOperation, s).
Proof. intros Ha. unfold signals, bind. simpl. by rewrite Ha. Qed.

Lemma guard_passes e :
  finite_event e ->
  is_nan (ask_high e) || is_nan (ask_low e) || is_nan (bid_high e)
    || is_nan (bid_low e) = false.
Proof. unfold finite_event, finite. by intros (-> & -> & -> & ->). Qed.

(** ** The outcome of the body on the state of a tracked pair *)

(** What follows the branch of tick 1. *)
Lemma steady_outcome self e s :
  pairs self <> [] -> finite_event e ->
  grounded (fr_pd s) -> seeded (fr_pd s) -> 1 <= pd_ticks (fr_pd s) ->
  wp (sar <- trend self e ;; s0 <- signals self e sar ;; finish e s0)
     (fun _ s' => tracked (fr_pd s') /\ seeded (fr_pd s') /\
                  pd_ticks (fr_pd s') = pd_ticks (fr_pd s) + 1)
     (fun ex s' => ex = InvalidOperation /\
                   grounded (fr_pd s') /\ seeded (fr_pd s') /\
                   pd_ticks (fr_pd s') = pd_ticks (fr_pd s)) s.
Proof.
  intros Hp He Hs Hsd Ht. wp_step.
  wp_use trend_grounded; [done..| |done].
  destruct H as ((q & ->) & Hs2 & Hsd2 & Ht2).
  wp_step.
  wp_use (wp_conj _ _ _ _ _ _ (signals_grounded self e q s' Hs2 Hsd2)
            (signals_invalid self e q s' Hp)).
  - destruct H as ((-> & Hs3 & Hsd3 & Ht3) & _).
    wp_use (wp_conj _ _ _ _ _ _ (finish_tracked e q s'0 He Hs3 Hsd3)
              (finish_frame e (Fin q) s'0)); [|by destruct H].
    destruct H as (Htr & _ & _ & _ & Hd & Ht4).
    split; [done|]. split; [|lia].
    destruct Htr as [_ Htr]. apply Htr. lia.
  - destruct H as ((Hs3 & Hsd3 & Ht3) & ->).
    split; [done|]. split; [done|]. split; [done | lia].
Qed.

Lemma on_tick_outcome self e fr :
  pairs self <> [] -> tracked (fr_pd fr) ->
  wp (on_tick self e)
     (fun _ s' => tracked (fr_pd s') /\
                  (pd_direction (fr_pd s') = pd_direction (fr_pd fr) \/
                   seeded (fr_pd s')))
     (fun ex s' => ex = InvalidOperation /\
                   grounded (fr_pd s') /\ seeded (fr_pd s') /\
                   pd_ticks (fr_pd s') = pd_ticks (fr_pd fr)) fr.
Proof.
  intros Hp [Hs Hsd]. unfold on_tick.
  destruct (is_nan (ask_high e) || is_nan (ask_low e) ||
            is_nan (bid_high e) || is_nan (bid_low e)) eqn:Hg.
  { apply wp_ret. split; [done | by left]. }
  apply guard_finite in Hg.
  wp_step. wp_step. wp_step.
  { apply Z.eqb_eq in Hb. wp_steps. split; [|by left]. rewrite Hb in *.
    destruct Hs as (H0 & Hhs & Hls & Hep & Hps & Hle).
    unfold tracked, grounded. pd_simpl.
    repeat split; try done; try lia. by exists e. }
  apply Z.eqb_neq in Hb.
  assert (1 <= pd_ticks (fr_pd fr)) as Ht by (destruct Hs; lia).
  wp_step. apply wp_when; intros Hb1.
  - wp_use seed_grounded; [done..| |done].
    destruct H as (Hs1 & Hsd1 & Ht1 & _).
    wp_use steady_outcome; [done..|lia| |].
    + destruct H as (Htr & Hsd2 & _). split; [done | by right].
    + destruct H as (-> & Hs2 & Hsd2 & Ht2).
      split; [done|]. split; [done|]. split; [done | lia].
  - apply Z.eqb_neq in Hb1.
    assert (seeded (fr_pd fr)) as Hsd0 by (apply Hsd; lia).
    wp_use steady_outcome; [done..| |].
    + destruct H as (Htr & Hsd2 & _). split; [done | by right].
    + done.
Qed.

(** ** The direction between two calls *)

Lemma pairs_nonempty_same_config s s' :
  same_config s s' -> pairs s <> [] -> pairs s' <> [].
Proof. intros (-> & _). done. Qed.

Lemma on_tick_directed self e fr :
  pairs self <> [] ->
  tracked (fr_pd fr) /\ directed (fr_pd fr) ->
  tracked (fr_pd (snd (on_tick self e fr))) /\
  directed (fr_pd (snd (on_tick self e fr))).
Proof.
  intros Hp [Htr Hd].
  apply (wp_snd _ (fun s => tracked (fr_pd s) /\ directed (fr_pd s))).
  wp_use on_tick_outcome; [done..| |].
  - destruct H as (Htr' & [Hsame | Hsd]); split; try done.
    + unfold directed. by rewrite Hsame.
    + destruct Hsd as (Hdir & _). unfold directed. tauto.
  - destruct H as (_ & Hs' & Hsd' & _). split; [by split|].
    destruct Hsd' as (Hdir & _). unfold directed. tauto.
Qed.

Lemma no_pairs_none_tracked evs0 st a m evs p :
  pairs_dict (feed evs (__init__ [] evs0 st a m)) !! p = None.
Proof.
  apply eq_None_not_Some. rewrite feed_tracked_pairs.
  unfold __init__, create_pairs_dict. cbn [pairs_dict foldl].
  rewrite lookup_empty. by intros [? ?].
Qed.



(** ** The exceptions of a call *)

Lemma calculate_signals_accepted self e pd :
  accepted self e ->
  pairs_dict self !! instrument e = Some pd ->
  calculate_signals e self =
    (fst (on_tick self e (mkFrame pd (events self))),
     {| pairs := pairs self;
        events := fr_events (snd (on_tick self e (mkFrame pd (events self))));
        step := step self;
        af := af self;
        af_max := af_max self;
        pairs_dict :=
          <[instrument e := fr_pd (snd (on_tick self e (mkFrame pd (events self))))]>
            (pairs_dict self) |}).
Proof.
  intros [Hty Hhd] Hpd. unfold calculate_signals. rewrite Hty. simpl.
  destruct (pairs self) as [|p0 rest]; [done|]. simpl in *.
  injection Hhd as ->. rewrite String.eqb_refl, Hpd.
  by destruct (on_tick self e _).
Qed.

Lemma calculate_signals_not_accepted self e :
  pairs self <> [] -> ~ accepted self e ->
  calculate_signals e self = (Returned tt, self).
Proof.
  intros Hp Hacc. unfold calculate_signals.
  destruct (String.eqb (type e) "TICK") eqn:Hty; [|done].
  destruct (pairs self) as [|p0 rest] eqn:Hps; [done|]. simpl.
  destruct (String.eqb (instrument e) p0) eqn:Hi; [|done].
  exfalso. apply Hacc. apply String.eqb_eq in Hty, Hi.
  split; [done|]. rewrite Hps. simpl. by rewrite Hi.
Qed.

Lemma accepted_dec self e : accepted self e \/ ~ accepted self e.
Proof.
  unfold accepted.
  destruct (decide (type e = "TICK")); [|tauto].
  destruct (decide (head (pairs self) = Some (instrument e))); tauto.
Qed.

Lemma reachable_accepted_tracked ps evs0 st a m evs e :
  accepted (feed evs (__init__ ps evs0 st a m)) e ->
  exists pd,
    pairs_dict (feed evs (__init__ ps evs0 st a m)) !! instrument e = Some pd /\
    tracked pd.
Proof.
  intros [_ Hhd].
  destruct (feed_config evs (__init__ ps evs0 st a m)) as (Hps & _).
  rewrite Hps in Hhd. simpl in Hhd.
  destruct ps as [|p0 rest]; [done|]. injection Hhd as <-.
  destruct (reachable_primary_tracked p0 rest evs0 st a m evs) as [pd Hpd].
  exists pd. split; [done|]. by eapply reachable_tracked.
Qed.



(** ** Ticks with six finite prices *)

Lemma trend_appends self e s :
  seeded (fr_pd s) ->
  wp (trend self e)
     (fun _ s' => length (pd_highs (fr_pd s')) = S (length (pd_highs (fr_pd s))))
     (fun _ s' => length (pd_highs (fr_pd s')) = S (length (pd_highs (fr_pd s)))) s.
Proof.
  intros (Hd & _). open_state s.
  unfold trend, uptrend, downtrend, in_uptrend, in_downtrend. cbv zeta.
  destruct Hd as [-> | ->];
    repeat (wp_step; pd_simpl; cbn [id Z.eqb Z.ltb Z.compare Pos.eqb Z.opp]).
  all: try discriminate.
  all: rewrite length_app; simpl; lia.
Qed.

Lemma steady_returns self e s :
  finite_config self -> pairs self <> [] -> finite_prices e ->
  grounded (fr_pd s) -> finite (pd_af (fr_pd s)) -> seeded (fr_pd s) ->
  wp (sar <- trend self e ;; s0 <- signals self e sar ;; finish e s0)
     (fun _ s' => pd_ticks (fr_pd s') = pd_ticks (fr_pd s) + 1)
     (fun _ _ => False) s.
Proof.
  intros HC Hp (He & Hask & Hbid) Hs Ha Hsd. wp_step.
  wp_use (wp_conj _ _ _ _ _ _ (trend_grounded self e s He Hs Hsd)
            (trend_returns self e s HC He Hs Ha Hsd)); [|by destruct H].
  destruct H as (((q & ->) & Hs2 & Hsd2 & Ht2) & _).
  wp_step.
  wp_use (wp_conj _ _ _ _ _ _ (signals_grounded self e q s' Hs2 Hsd2)
            (signals_returns self e q s' Hp Hask Hbid)); [|by destruct H].
  destruct H as ((-> & _ & _ & Ht3) & _).
  wp_use finish_frame; [|done].
  destruct H as (_ & _ & _ & _ & Ht4). lia.
Qed.

Lemma on_tick_returns self e fr :
  finite_config self -> pairs self <> [] -> finite_prices e ->
  tracked (fr_pd fr) -> finite (pd_af (fr_pd fr)) ->
  wp (on_tick self e)
     (fun _ s' => pd_ticks (fr_pd s') = pd_ticks (fr_pd fr) + 1)
     (fun _ _ => False) fr.
Proof.
  intros HC Hp He [Hs Hsd] Ha. unfold on_tick.
  rewrite guard_passes by apply He.
  wp_step. wp_step. wp_step; [wp_steps; done|].
  apply Z.eqb_neq in Hb.
  assert (1 <= pd_ticks (fr_pd fr)) as Ht by (destruct Hs; lia).
  wp_step. apply wp_when; intros Hb1.
  - wp_use seed_grounded; [apply He|done..| |done].
    destruct H as (Hs1 & Hsd1 & Ht1 & Haf).
    assert (finite (pd_af (fr_pd s'))) as Ha1.
    { destruct HC as (_ & Hfa & _).
      destruct Haf as [-> | ->]; [done | by apply finite_neg]. }
    wp_use steady_returns; [done..|cbv beta in H; lia|done].
  - apply Z.eqb_neq in Hb1.
    assert (seeded (fr_pd fr)) as Hsd0 by (apply Hsd; lia).
    wp_use steady_returns; [done..|done|done].
Qed.



(** ** A missing ask price *)

Lemma on_tick_nan_ask self e fr :
  tracked (fr_pd fr) -> pd_ticks (fr_pd fr) <> 0 ->
  finite_event e -> ask e = NaN ->
  wp (on_tick self e)
     (fun _ _ => False)
     (fun ex s' => ex = InvalidOperation /\
                   fr_events s' = fr_events fr /\
                   pd_ticks (fr_pd s') = pd_ticks (fr_pd fr) /\
                   (length (pd_highs (fr_pd fr)) < length (pd_highs (fr_pd s')))%nat)
     fr.
Proof.
  intros [Hs Hsd] Ht0 He Hask.
  assert (forall s, grounded (fr_pd s) -> seeded (fr_pd s) ->
    wp (sar <- trend self e ;; s0 <- signals self e sar ;; finish e s0)
       (fun _ _ => False)
       (fun ex s' => ex = InvalidOperation /\
                     fr_events s' = fr_events s /\
                     pd_ticks (fr_pd s') = pd_ticks (fr_pd s) /\
                     (length (pd_highs (fr_pd s)) < length (pd_highs (fr_pd s')))%nat)
       s) as Hsteady.
  { intros s Hs1 Hsd1. wp_step.
    wp_use (wp_conj _ _ _ _ _ _
              (wp_conj _ _ _ _ _ _ (trend_grounded self e s He Hs1 Hsd1)
                 (trend_frame self e s))
              (trend_appends self e s Hsd1)).
    - destruct H as ((((q & ->) & _) & (Hev & _ & _ & Htk & _)) & Hlen).
      wp_step. unfold wp at 1. rewrite signals_nan_ask by done.
      split; [done|]. split; [done|]. split; [done | lia].
    - destruct H as (((-> & _) & (Hev & _ & _ & Htk & _)) & Hlen).
      split; [done|]. split; [done|]. split; [done | lia]. }
  unfold on_tick. rewrite guard_passes by done.
  wp_step. wp_step. apply Z.eqb_neq in Ht0. rewrite Ht0. apply Z.eqb_neq in Ht0.
  assert (1 <= pd_ticks (fr_pd fr)) as Ht by (destruct Hs; lia).
  wp_step. apply wp_when; intros Hb1.
  - wp_use (wp_conj _ _ _ _ _ _ (seed_grounded self e fr He Hs Ht)
              (seed_frame self e fr)); [|by destruct H].
    destruct H as ((Hs1 & Hsd1 & _) & (Hev & _ & _ & Htk & Hlen)).
    wp_use Hsteady; [done..| |].
    + done.
    + destruct H as (-> & Hev' & Htk' & Hlen').
      split; [done|]. split; [congruence|]. split; [congruence | lia].
  - apply Z.eqb_neq in Hb1. apply Hsteady; [done | apply Hsd; lia].
Qed.



(** ** A downtrend is never left *)

Lemma trend_downtrend self e s :
  pd_direction (fr_pd s) = -1 ->
  wp (trend self e)
     (fun _ s' => pd_direction (fr_pd s') = -1)
     (fun _ s' => pd_direction (fr_pd s') = -1) s.
Proof.
  intros Hd. open_state s. subst d.
  unfold trend, uptrend, downtrend, in_uptrend, in_downtrend. cbv zeta.
  repeat (wp_step; pd_simpl; cbn [id Z.eqb Z.ltb Z.compare Pos.eqb Z.opp]).
  all: done.
Qed.

Lemma on_tick_downtrend self e fr :
  pd_direction (fr_pd fr) = -1 /\ 2 <= pd_ticks (fr_pd fr) ->
  pd_direction (fr_pd (snd (on_tick self e fr))) = -1 /\
  2 <= pd_ticks (fr_pd (snd (on_tick self e fr))).
Proof.
  intros [Hd Ht].
  apply (wp_snd _ (fun s => pd_direction (fr_pd s) = -1 /\ 2 <= pd_ticks (fr_pd s))).
  unfold on_tick. wp_step; [by wp_step|].
  wp_step. wp_step.
  replace (pd_ticks (fr_pd fr) =? 0) with false by (symmetry; apply Z.eqb_neq; lia).
  replace (pd_ticks (fr_pd fr) =? 1) with false by (symmetry; apply Z.eqb_neq; lia).
  wp_step. apply wp_when; [done|intros _]. wp_step.
  wp_use (wp_conj _ _ _ _ _ _ (trend_downtrend self e fr Hd) (trend_frame self e fr)).
  - destruct H as (Hd1 & _ & _ & _ & Ht1 & _).
    wp_step. wp_use signals_frame.
    + destruct H as (Hd2 & Ht2 & _).
      wp_use finish_frame; [|done].
      destruct H as (_ & _ & _ & Hd3 & Ht3). split; [congruence | lia].
    + destruct H as (Hd2 & Ht2 & _). split; [congruence | lia].
  - destruct H as (Hd1 & _ & _ & _ & Ht1 & _). split; [done | lia].
Qed.

(** What the body keeps on the state of a pair, whatever its outcome, a
    pair that has it keeps through every run of events. *)
Section pair_invariant.
Variable I : PairState -> Prop.
Hypothesis on_tick_keeps :
  forall self e fr, I (fr_pd fr) -> I (fr_pd (snd (on_tick self e fr))).

Lemma calculate_signals_keeps_pair e s p :
  (exists pd, pairs_dict s !! p = Some pd /\ I pd) ->
  exists pd, pairs_dict (snd (calculate_signals e s)) !! p = Some pd /\ I pd.
Proof.
  intros (pd & Hpd & HI). unfold calculate_signals.
  destruct (String.eqb (type e) "TICK"); [|by exists pd].
  destruct (pairs s) as [|p0 rest]; simpl; [by exists pd|].
  destruct (String.eqb (instrument e) p0); [|by exists pd].
  destruct (pairs_dict s !! instrument e) as [pd1|] eqn:Hpd1; [|by exists pd].
  pose proof (on_tick_keeps s e (mkFrame pd1 (events s))) as Hk.
  destruct (on_tick s e _) as [r fr]. simpl in *.
  destruct (decide (instrument e = p)) as [Heq|Hne].
  - rewrite Heq in *. rewrite lookup_insert_eq. eexists. split; [done|].
    apply Hk. congruence.
  - rewrite lookup_insert_ne by done. by exists pd.
Qed.

Lemma feed_keeps_pair evs : forall s p,
  (exists pd, pairs_dict s !! p = Some pd /\ I pd) ->
  exists pd, pairs_dict (feed evs s) !! p = Some pd /\ I pd.
Proof.
  induction evs as [|e evs IH]; intros s p H; simpl; [done|].
  fold (feed evs (snd (calculate_signals e s))).
  by apply IH, calculate_signals_keeps_pair.
Qed.
End pair_invariant.

(** X7: a pair that is in a downtrend once two ticks have been counted
    stays in a downtrend whatever events follow: no branch of the code
    brings the direction back to 1. *)
Theorem downtrend_never_left (self : Self) (evs : list Event) (p : string)
    (pd : PairState) :
  pairs_dict self !! p = Some pd ->
  pd_direction pd = -1 ->
  2 <= pd_ticks pd ->
  exists pd',
    pairs_dict (feed evs self) !! p = Some pd' /\
    pd_direction pd' = -1 /\ 2 <= pd_ticks pd'.
Proof.
  intros Hpd Hd Ht.
  apply (feed_keeps_pair (fun pd => pd_direction pd = -1 /\ 2 <= pd_ticks pd)).
  - intros s e fr. apply on_tick_downtrend.
  - by exists pd.
Qed.

Lemma downtrend_never_left_witness :
  exists pd,
    pairs_dict (feed flat_ticks default_strategy) !! "EURUSD" = Some pd /\
    exists pd',
      pairs_dict (feed [rising_tick; tick 3 12 12 12 12 12 12]
                    (feed flat_ticks default_strategy)) !! "EURUSD" = Some pd' /\
      pd_direction pd' = -1 /\ 2 <= pd_ticks pd'.
Proof.
  eexists. split; [vm_compute; reflexivity|].
  eapply (downtrend_never_left (feed flat_ticks default_strategy)
            [rising_tick; tick 3 12 12 12 12 12 12] "EURUSD").
  - vm_compute. reflexivity.
  - reflexivity.
  - vm_compute. discriminate.
Defined.

(** ** The signals of one call *)

Lemma signals_puts self e rest sar s :
  pairs self = instrument e :: rest ->
  wp (signals self e sar)
     (fun _ s' => exists new, fr_events s' = fr_events s ++ new /\ put_by e new)
     (fun _ s' => exists new, fr_events s' = fr_events s ++ new /\ put_by e new) s.
Proof.
  intros Hps. unfold signals. rewrite Hps. psar_steps.
  all: unfold put_by, buy_at, sell_at.
  all: first [ exists []; split; [by rewrite app_nil_r | by left]
             | eexists; split; [rewrite <- ?app_assoc; reflexivity|];
               first [ by right; left | by do 2 right; left | by do 3 right ] ].
Qed.

Lemma on_tick_puts self e rest fr :
  pairs self = instrument e :: rest ->
  wp (on_tick self e)
     (fun _ s' => exists new, fr_events s' = fr_events fr ++ new /\ put_by e new)
     (fun _ s' => exists new, fr_events s' = fr_events fr ++ new /\ put_by e new) fr.
Proof.
  intros Hps.
  assert (forall s : Frame PairState,
    exists new, fr_events s = fr_events s ++ new /\ put_by e new) as Hnone.
  { intros s. exists []. split; [by rewrite app_nil_r | by left]. }
  assert (forall s, fr_events s = fr_events fr ->
    wp (sar <- trend self e ;; s0 <- signals self e sar ;; finish e s0)
       (fun _ s' => exists new, fr_events s' = fr_events fr ++ new /\ put_by e new)
       (fun _ s' => exists new, fr_events s' = fr_events fr ++ new /\ put_by e new)
       s) as Hsteady.
  { intros s Hev. wp_step. wp_use trend_frame.
    - destruct H as (Hev1 & _). wp_step.
      wp_use (signals_puts self e rest); [done| |].
      + wp_use finish_frame; [|done].
        destruct H as (new & Hev2 & Hnew), H0 as (Hev3 & _).
        exists new. split; [congruence | done].
      + destruct H as (new & Hev2 & Hnew).
        exists new. split; [congruence | done].
    - destruct H as (Hev1 & _). rewrite Hev1, Hev. apply Hnone. }
  unfold on_tick. wp_step; [wp_step; apply Hnone|].
  wp_step. wp_step. wp_step; [wp_steps; apply Hnone|].
  wp_step. apply wp_when; intros _.
  - wp_use seed_frame.
    + destruct H as (Hev1 & _). by apply Hsteady.
    + destruct H as (Hev1 & _). rewrite Hev1. apply Hnone.
  - by apply Hsteady.
Qed.

(** X8: one call of [calculate_signals] adds to the event queue nothing,
    one buy, one sell, or a buy followed by a sell, and removes nothing
    from it; each signal put is a market order for the instrument of the
    event, stamped with the time of the event. *)
Theorem at_most_buy_then_sell (self : Self) (e : Event) :
  exists new,
    events (snd (calculate_signals e self)) = events self ++ new /\
    put_by e new.
Proof.
  assert (exists new, events self = events self ++ new /\ put_by e new) as Hnone.
  { exists []. split; [by rewrite app_nil_r | by left]. }
  unfold calculate_signals.
  destruct (String.eqb (type e) "TICK"); [|done].
  destruct (pairs self) as [|p0 rest] eqn:Hps; simpl; [done|].
  destruct (String.eqb (instrument e) p0) eqn:Hi; [|done].
  apply String.eqb_eq in Hi. subst p0.
  destruct (pairs_dict self !! instrument e) as [pd|]; [|done].
  pose proof (on_tick_puts self e rest (mkFrame pd (events self)) Hps) as Hwp.
  apply (wp_snd _ (fun s' => exists new,
           fr_events s' = events self ++ new /\ put_by e new)) in Hwp.
  by destruct (on_tick self e _) as [r fr].
Qed.

(** ** Buys and sells alternate *)

Lemma linked_put_buy evs0 lg sh evs p t :
  linked evs0 lg sh evs -> lg = false ->
  linked evs0 true false (evs ++ [mkSignalEvent p "market" "buy" t]).
Proof.
  intros (new & -> & Hall & Halt & Hb & Hs) ->.
  exists (new ++ [mkSignalEvent p "market" "buy" t]).
  rewrite map_app. cbn [map sig_side]. rewrite last_snoc.
  split; [by rewrite app_assoc|]. split.
  { apply Forall_app_2; [done|]. constructor; [by left | constructor]. }
  split; [|done].
  apply alternating_snoc; [done|]. intros Hl. by specialize (Hb Hl).
Qed.

Lemma linked_put_sell evs0 lg sh evs p t :
  linked evs0 lg sh evs -> sh = false ->
  linked evs0 false true (evs ++ [mkSignalEvent p "market" "sell" t]).
Proof.
  intros (new & -> & Hall & Halt & Hb & Hs) ->.
  exists (new ++ [mkSignalEvent p "market" "sell" t]).
  rewrite map_app. cbn [map sig_side]. rewrite last_snoc.
  split; [by rewrite app_assoc|]. split.
  { apply Forall_app_2; [done|]. constructor; [by right | constructor]. }
  split; [|done].
  apply alternating_snoc; [done|]. intros Hl. by specialize (Hs Hl).
Qed.

Lemma signals_linked evs0 self e sar s :
  pairs self <> [] ->
  linked evs0 (pd_long (fr_pd s)) (pd_short (fr_pd s)) (fr_events s) ->
  wp (signals self e sar)
     (fun _ s' => linked evs0 (pd_long (fr_pd s')) (pd_short (fr_pd s'))
                    (fr_events s'))
     (fun _ s' => linked evs0 (pd_long (fr_pd s')) (pd_short (fr_pd s'))
                    (fr_events s')) s.
Proof.
  intros Hp H. destruct (pairs self) as [|p0 rest] eqn:Hps; [done|].
  unfold signals. rewrite Hps. psar_steps.
  all: try exact H.
  all: repeat match goal with
       | Hn : negb _ = true |- _ => apply negb_true_iff in Hn
       | Hn : negb _ = false |- _ => apply negb_false_iff in Hn
       end; try discriminate.
  all: first [ by eapply linked_put_buy
             | by eapply linked_put_sell
             | eapply linked_put_sell; [by eapply linked_put_buy | done] ].
Qed.

Lemma on_tick_linked evs0 self e fr :
  pairs self <> [] ->
  linked evs0 (pd_long (fr_pd fr)) (pd_short (fr_pd fr)) (fr_events fr) ->
  linked evs0 (pd_long (fr_pd (snd (on_tick self e fr))))
    (pd_short (fr_pd (snd (on_tick self e fr))))
    (fr_events (snd (on_tick self e fr))).
Proof.
  intros Hp H.
  apply (wp_snd _ (fun s => linked evs0 (pd_long (fr_pd s)) (pd_short (fr_pd s))
                              (fr_events s))).
  assert (forall s,
    linked evs0 (pd_long (fr_pd s)) (pd_short (fr_pd s)) (fr_events s) ->
    wp (sar <- trend self e ;; s0 <- signals self e sar ;; finish e s0)
       (fun _ s' => linked evs0 (pd_long (fr_pd s')) (pd_short (fr_pd s'))
                      (fr_events s'))
       (fun _ s' => linked evs0 (pd_long (fr_pd s')) (pd_short (fr_pd s'))
                      (fr_events s')) s) as Hsteady.
  { intros s Hs. wp_step. wp_use trend_frame.
    - destruct H0 as (Hev & Hl & Hsh & _). wp_step.
      wp_use (signals_linked evs0); [done|by rewrite Hev, Hl, Hsh| |done].
      wp_use finish_frame; [|done].
      destruct H1 as (Hev1 & Hl1 & Hsh1 & _). by rewrite Hev1, Hl1, Hsh1.
    - destruct H0 as (Hev & Hl & Hsh & _). by rewrite Hev, Hl, Hsh. }
  unfold on_tick. wp_step; [by wp_step|].
  wp_step. wp_step. wp_step; [wp_steps; exact H|].
  wp_step. apply wp_when; intros _.
  - wp_use seed_frame.
    + destruct H0 as (Hev & Hl & Hsh & _). apply Hsteady. by rewrite Hev, Hl, Hsh.
    + destruct H0 as (Hev & Hl & Hsh & _). by rewrite Hev, Hl, Hsh.
  - by apply Hsteady.
Qed.

Lemma feed_no_pairs evs : forall s, pairs s = [] -> feed evs s = s.
Proof.
  induction evs as [|e evs IH]; intros s Hps; simpl; [done|].
  fold (feed evs (snd (calculate_signals e s))).
  assert (snd (calculate_signals e s) = s) as ->; [|by apply IH].
  unfold calculate_signals. rewrite Hps.
  by destruct (String.eqb (type e) "TICK").
Qed.

Lemma feed_linked evs0 p0 rest evs : forall s,
  pairs s = p0 :: rest ->
  (exists pd, pairs_dict s !! p0 = Some pd /\
              linked evs0 (pd_long pd) (pd_short pd) (events s)) ->
  exists pd, pairs_dict (feed evs s) !! p0 = Some pd /\
             linked evs0 (pd_long pd) (pd_short pd) (events (feed evs s)).
Proof.
  induction evs as [|e evs IH]; intros s Hps H; simpl; [done|].
  fold (feed evs (snd (calculate_signals e s))).
  apply IH.
  { by destruct (calculate_signals_config e s) as (-> & _). }
  destruct H as (pd & Hpd & Hl). unfold calculate_signals.
  destruct (String.eqb (type e) "TICK"); [|by exists pd].
  rewrite Hps. simpl.
  destruct (String.eqb (instrument e) p0) eqn:Hi; [|by exists pd].
  apply String.eqb_eq in Hi. rewrite Hi, Hpd.
  pose proof (on_tick_linked evs0 s e (mkFrame pd (events s))) as Hk.
  destruct (on_tick s e _) as [r fr]. simpl in *.
  exists (fr_pd fr). rewrite lookup_insert_eq. split; [done|].
  apply Hk; [by rewrite Hps | done].
Qed.

(** X9: the signals that a strategy has put since its creation, after the
    signals its queue held then, are buys and sells, and no two
    consecutive ones are on the same side: a buy is always followed by a
    sell and a sell by a buy. *)
Theorem buys_and_sells_alternate (ps : list string) (evs0 : list SignalEvent)
    (st a m : Decimal) (evs : list Event) :
  exists new,
    events (feed evs (__init__ ps evs0 st a m)) = evs0 ++ new /\
    Forall (fun s => sig_side s = "buy" \/ sig_side s = "sell") new /\
    alternating (map sig_side new) = true.
Proof.
  destruct ps as [|p0 rest].
  - rewrite feed_no_pairs by done. exists []. simpl.
    split; [by rewrite app_nil_r | done].
  - destruct (feed_linked evs0 p0 rest evs (__init__ (p0 :: rest) evs0 st a m))
      as (pd & _ & new & Hev & Hall & Halt & _); [done| |by exists new].
    exists (attr_dict a). split.
    + unfold __init__, create_pairs_dict. cbn [pairs_dict].
      rewrite create_pairs_dict_from, bool_decide_eq_true_2; [done | by left].
    + exists []. simpl. split; [by rewrite app_nil_r | done].
Qed.

(** ** The reversal of an uptrend *)

Lemma uptrend_step self e s ps a ep :
  finite_config self -> finite_event e ->
  Forall finite (pd_lows (fr_pd s)) ->
  pd_direction (fr_pd s) = 1 ->
  pd_prior_sar (fr_pd s) = Some (Fin ps) ->
  pd_af (fr_pd s) = Fin a ->
  pd_ep (fr_pd s) = Fin ep ->
  wp (trend self e)
     (fun r s' =>
        exists sar mn,
          r = Some sar /\
          is_min mn (pd_lows (fr_pd s) ++ [ask_low e]) /\
          ((mn < uptrend_sar ps a ep)%Qc ->
           pd_direction (fr_pd s') = -1 /\
           pd_af (fr_pd s') = dec_neg (af self) /\
           sar = pd_ep (fr_pd s')) /\
          ((uptrend_sar ps a ep <= mn)%Qc ->
           pd_direction (fr_pd s') = 1 /\
           sar = Fin (uptrend_sar ps a ep)))
     (fun _ _ => False) s.
Proof.
  intros (Hst & Haf & Hmax) (Hah & Hal & Hbh & Hbl) Hls Hd Hps Ha Hep.
  open_state s. subst.
  apply finite_Fin in Hst as [st Est], Haf as [a0 Eaf], Hmax as [m Emax].
  unfold trend, uptrend, in_uptrend, in_downtrend, uptrend_sar. cbv zeta.
  rewrite Est, Eaf, Emax.
  destruct (ask_high e) as [ah|], (ask_low e) as [al|]; try done.
  repeat (wp_value_step; pd_simpl;
          cbn [id Z.eqb Z.ltb Z.compare Pos.eqb Z.opp dec_add dec_sub dec_mul]).
  all: match goal with
       | Hm : is_min ?m _ |- _ => eexists _, m
       end.
  all: (split; [reflexivity|]; split; [done|]).
  all: match goal with
       | Hc : Qc_ltb _ _ = true |- _ /\ _ =>
           apply Qc_ltb_lt in Hc; split; [done|];
           intros Hge; by apply Qcle_not_lt in Hge
       | Hc : Qc_ltb _ _ = false |- _ /\ _ =>
           apply Qc_ltb_ge in Hc; split; [|done];
           intros Hlt; by apply Qcle_not_lt in Hc
       end.
Qed.



(** ** An indicator inside the spread *)

Lemma signals_straddled self e rest q a b pd evs :
  pairs self = instrument e :: rest ->
  ask e = Fin a -> bid e = Fin b ->
  (b < q)%Qc -> (q < a)%Qc ->
  exclusive pd ->
  wp (signals self e (Some (Fin q)))
     (fun r s' =>
        r = Fin q /\
        fr_events s' =
          evs ++ (if pd_long pd then [] else [buy_at e]) ++ [sell_at e] /\
        pd_long (fr_pd s') = false /\ pd_short (fr_pd s') = true)
     (fun _ _ => False) (mkFrame pd evs).
Proof.
  intros Hps Ha Hb Hbq Hqa Hex.
  apply Qc_ltb_lt in Hbq, Hqa.
  unfold signals, exclusive, buy_at, sell_at in *. rewrite Hps, Ha, Hb.
  repeat (wp_value_step; pd_simpl).
  all: try congruence.
  all: repeat match goal with
       | Hn : negb ?x = _ |- _ => destruct x eqn:?; simpl in Hn; try discriminate Hn
       end.
  all: try (exfalso; apply Hex; by split).
  all: rewrite <- ?app_assoc; done.
Qed.

(** X11: when the indicator of a tick lies strictly between its bid and
    its ask price, the signal tests leave the pair short: a pair that is
    not long is bought and sold on the same tick, in that order, and a
    pair that is long is sold. *)
Theorem straddled_indicator_sells (self : Self) (e : Event)
    (rest : list string) (q a b : Qc) (pd : PairState)
    (evs : list SignalEvent) :
  pairs self = instrument e :: rest ->
  ask e = Fin a -> bid e = Fin b ->
  (b < q)%Qc -> (q < a)%Qc ->
  exclusive pd ->
  exists pd',
    signals self e (Some (Fin q)) (mkFrame pd evs) =
      (Returned (Fin q),
       mkFrame pd'
         (evs ++ (if pd_long pd then [] else [buy_at e]) ++ [sell_at e])) /\
    pd_long pd' = false /\ pd_short pd' = true.
Proof.
  intros Hps Ha Hb Hbq Hqa Hex.
  pose proof (signals_straddled self e rest q a b pd evs Hps Ha Hb Hbq Hqa Hex)
    as Hwp.
  destruct (signals self e _ _) as [r [pd' evs']] eqn:Hrun.
  pose proof (wp_run _ _ _ _ _ _ Hwp Hrun) as Hr.
  destruct r as [r|ex]; [|done]. simpl in Hr.
  destruct Hr as (-> & -> & Hl & Hs). by exists pd'.
Qed.

Lemma straddled_indicator_sells_witness :
  exists pd',
    signals default_strategy rising_tick (Some (Fin (Q2Qc (21 # 2))))
      (mkFrame (attr_dict default_af) []) =
      (Returned (Fin (Q2Qc (21 # 2))),
       mkFrame pd'
         ([] ++ (if pd_long (attr_dict default_af) then []
                 else [buy_at rising_tick]) ++ [sell_at rising_tick])) /\
    pd_long pd' = false /\ pd_short pd' = true.
Proof.
  apply (straddled_indicator_sells default_strategy rising_tick []
           (Q2Qc (21 # 2)) (Q2Qc 11) (Q2Qc 10) (attr_dict default_af) []).
  - reflexivity.
  - reflexivity.
  - reflexivity.
  - reflexivity.
  - reflexivity.
  - intros [H _]. discriminate H.
Defined.


End PSARFacts.


(** * Properties of MovingAverageCrossStrategy *)

Module MACFacts.
Import MovingAverageCrossStrategy.

Ltac mac_simpl :=
  cbn [fr_pd fr_events pd_ticks pd_invested pd_short_sma pd_long_sma
       set_ticks set_invested set_short_sma set_long_sma] in *.

Ltac mac_steps := cbv zeta; repeat (wp_fin_step; mac_simpl).

Lemma stateless_calc_rolling_sma {S} o w p : stateless (@calc_rolling_sma S o w p).
Proof. apply stateless_bind; [apply stateless_num | intros; apply stateless_dec_div]. Qed.

#[local] Hint Resolve stateless_calc_rolling_sma : stateless.

Lemma crossover_config_refl s : same_config s s.
Proof. by repeat split. Qed.

Lemma crossover_config_trans s1 s2 s3 :
  same_config s1 s2 -> same_config s2 s3 -> same_config s1 s3.
Proof. unfold same_config. intros (-> & -> & ->) (-> & -> & ->). done. Qed.

Lemma crossover_signals_config e s : same_config s (snd (calculate_signals e s)).
Proof.
  unfold calculate_signals.
  destruct (String.eqb (type e) "TICK"); [|apply crossover_config_refl].
  destruct (pairs_dict s !! instrument e); [|apply crossover_config_refl].
  destruct (on_tick s e _) as [r fr]. simpl. by repeat split.
Qed.

Lemma crossover_feed_config evs : forall s, same_config s (feed evs s).
Proof.
  induction evs as [|e evs IH]; intros s; simpl; [apply crossover_config_refl|].
  eapply crossover_config_trans; [apply crossover_signals_config | apply IH].
Qed.

(** ** Warm-up *)

Lemma update_smas_frame self e s :
  wp (update_smas self e)
     (fun _ s' => fr_events s' = fr_events s /\
                  pd_ticks (fr_pd s') = pd_ticks (fr_pd s))
     (fun _ s' => fr_events s' = fr_events s /\
                  pd_ticks (fr_pd s') = pd_ticks (fr_pd s)) s.
Proof. unfold update_smas. cbv zeta. repeat (wp_step; mac_simpl); done. Qed.

(** C4: a tick processed while the tick count of its instrument is at
    most [short_window] puts nothing on the event queue; so a signal is
    only emitted on a tick whose count exceeds [short_window]. *)
Theorem no_signal_during_warm_up (self : Self) (e : Event) :
  (forall pd, pairs_dict self !! instrument e = Some pd ->
              pd_ticks pd <= short_window self) ->
  events (snd (calculate_signals e self)) = events self.
Proof.
  intros Hw. unfold calculate_signals.
  destruct (String.eqb (type e) "TICK"); [|done].
  destruct (pairs_dict self !! instrument e) as [pd|] eqn:Hpd; [|done].
  specialize (Hw pd eq_refl).
  assert (wp (on_tick self e)
            (fun _ s' => fr_events s' = events self)
            (fun _ s' => fr_events s' = events self)
            (mkFrame pd (events self))) as Hwp.
  { unfold on_tick. wp_step.
    wp_use update_smas_frame; [|by destruct H].
    destruct H as [Hev Ht]. simpl in Hev, Ht.
    wp_step. wp_step. rewrite Ht.
    replace (short_window self <? pd_ticks pd) with false
      by (symmetry; apply Z.ltb_ge; lia).
    simpl. repeat (wp_step; mac_simpl). done. }
  apply (wp_snd _ (fun s' => fr_events s' = events self)) in Hwp.
  destruct (on_tick self e _) as [r fr]. done.
Qed.

Lemma no_signal_during_warm_up_witness :
  events (snd (calculate_signals (price_tick 2 1)
                 (feed [price_tick 0 1; price_tick 1 1] short2_strategy)))
  = events (feed [price_tick 0 1; price_tick 1 1] short2_strategy).
Proof.
  apply (no_signal_during_warm_up
           (feed [price_tick 0 1; price_tick 1 1] short2_strategy)
           (price_tick 2 1)).
  intros pd Hpd. vm_compute in Hpd. injection Hpd as <-.
  vm_compute. discriminate.
Defined.

(** ** The rolling averages *)

Lemma Qc_eqb_inject_Z n : n <> 0 -> Qc_eqb (Q2Qc (inject_Z n)) 0%Qc = false.
Proof.
  intros Hn. unfold Qc_eqb, Qccompare.
  destruct (this (Q2Qc (inject_Z n)) ?= this 0%Qc)%Q eqn:Hc; try done.
  apply Qeq_alt in Hc. simpl in Hc. rewrite Qred_correct in Hc.
  unfold Qeq in Hc. simpl in Hc. lia.
Qed.

Lemma calc_rolling_sma_spec {S} o w p (s : S) :
  w <> 0 ->
  calc_rolling_sma (Some o) w p s = (Returned (rolling_average o w p), s).
Proof.
  intros Hw. unfold calc_rolling_sma, rolling_average, roll, bind; simpl.
  destruct o as [o|], p as [p|]; simpl; try done.
  unfold dec_div. by rewrite Qc_eqb_inject_Z.
Qed.

Lemma update_smas_first self e s :
  pd_ticks (fr_pd s) = 0 ->
  wp (update_smas self e)
     (fun _ s' => pd_ticks (fr_pd s') = pd_ticks (fr_pd s) /\
                  pd_short_sma (fr_pd s') = Some (bid e) /\
                  pd_long_sma (fr_pd s') = Some (bid e))
     (fun _ _ => False) s.
Proof.
  intros Ht. unfold update_smas. cbv zeta.
  wp_step. wp_step. rewrite Ht. cbn [Z.eqb].
  repeat (wp_step; mac_simpl). done.
Qed.

Lemma update_smas_next self e so lo s :
  pd_ticks (fr_pd s) <> 0 ->
  pd_short_sma (fr_pd s) = Some so ->
  pd_long_sma (fr_pd s) = Some lo ->
  short_window self <> 0 ->
  long_window self <> 0 ->
  wp (update_smas self e)
     (fun _ s' =>
        pd_ticks (fr_pd s') = pd_ticks (fr_pd s) /\
        pd_short_sma (fr_pd s') = Some (rolling_average so (short_window self) (bid e)) /\
        pd_long_sma (fr_pd s') = Some (rolling_average lo (long_window self) (bid e)))
     (fun _ _ => False) s.
Proof.
  intros Ht Hso Hlo Hsw Hlw. unfold update_smas. cbv zeta.
  destruct s as [[t i ss ls] evs]. mac_simpl. subst ss ls.
  apply Z.eqb_neq in Ht.
  wp_step. wp_step. mac_simpl. rewrite Ht.
  wp_step. wp_step. mac_simpl.
  wp_step. unfold wp at 1. rewrite calc_rolling_sma_spec by done.
  wp_step. wp_step. mac_simpl. wp_step. wp_step. mac_simpl.
  wp_step. unfold wp at 1. rewrite calc_rolling_sma_spec by done.
  wp_step. mac_simpl. done.
Qed.

Lemma crossover_frame e s :
  wp (crossover e)
     (fun _ s' => pd_ticks (fr_pd s') = pd_ticks (fr_pd s) /\
                  pd_short_sma (fr_pd s') = pd_short_sma (fr_pd s) /\
                  pd_long_sma (fr_pd s') = pd_long_sma (fr_pd s))
     (fun _ s' => pd_ticks (fr_pd s') = pd_ticks (fr_pd s) /\
                  pd_short_sma (fr_pd s') = pd_short_sma (fr_pd s) /\
                  pd_long_sma (fr_pd s') = pd_long_sma (fr_pd s)) s.
Proof. unfold crossover. cbv zeta. repeat (wp_step; mac_simpl); done. Qed.

Lemma on_tick_after_update self e s (R : PairState -> Prop) :
  (forall p p', pd_short_sma p' = pd_short_sma p ->
                pd_long_sma p' = pd_long_sma p -> R p -> R p') ->
  wp (update_smas self e) (fun _ s' => R (fr_pd s')) (fun _ _ => False) s ->
  R (fr_pd (snd (on_tick self e s))).
Proof.
  intros HR Hup. apply (wp_snd _ (fun s' => R (fr_pd s'))).
  unfold on_tick. wp_step.
  eapply wp_mono; [exact Hup | intros ? s1 H1; cbv beta | done].
  wp_step. wp_step. wp_step. apply wp_when; intros _.
  - wp_use crossover_frame.
    + destruct H as (_ & Hs & Hl).
      repeat (wp_step; mac_simpl). eapply HR; [| |exact H1]; mac_simpl; done.
    + destruct H as (_ & Hs & Hl). eapply HR; [| |exact H1]; done.
  - repeat (wp_step; mac_simpl). eapply HR; [| |exact H1]; mac_simpl; done.
Qed.

Lemma update_smas_averaged self e s :
  averaged (fr_pd s) ->
  wp (update_smas self e)
     (fun _ s' => pd_ticks (fr_pd s') = pd_ticks (fr_pd s) /\
                  is_Some (pd_short_sma (fr_pd s')) /\
                  is_Some (pd_long_sma (fr_pd s')))
     (fun _ s' => averaged (fr_pd s')) s.
Proof.
  intros [H0 Hav]. unfold update_smas, averaged. cbv zeta.
  repeat (wp_step; mac_simpl); try done.
  all: apply Z.eqb_neq in Hb; destruct (Hav Hb) as [Hs Hl]; try done.
Qed.

Lemma on_tick_averaged self e fr :
  averaged (fr_pd fr) -> averaged (fr_pd (snd (on_tick self e fr))).
Proof.
  intros Hav. apply (wp_snd _ (fun s' => averaged (fr_pd s'))).
  unfold on_tick. wp_step.
  wp_use update_smas_averaged; [done| |done].
  destruct H as (Ht & Hs & Hl). destruct Hav as [H0 _].
  wp_step. wp_step. wp_step. apply wp_when; intros _.
  - wp_use crossover_frame.
    + destruct H as (Ht' & Hs' & Hl').
      repeat (wp_step; mac_simpl). unfold averaged. mac_simpl.
      rewrite Hs', Hl', Ht', Ht. split; [lia | done].
    + destruct H as (Ht' & Hs' & Hl'). unfold averaged.
      rewrite Hs', Hl', Ht', Ht. split; [lia | done].
  - repeat (wp_step; mac_simpl). unfold averaged. mac_simpl.
    rewrite Ht. split; [lia | done].
Qed.

Lemma calculate_signals_averaged e s :
  map_Forall (fun _ => averaged) (pairs_dict s) ->
  map_Forall (fun _ => averaged) (pairs_dict (snd (calculate_signals e s))).
Proof.
  intros HI. unfold calculate_signals.
  destruct (String.eqb (type e) "TICK"); [|done].
  destruct (pairs_dict s !! instrument e) as [pd|] eqn:Hpd; [|done].
  pose proof (on_tick_averaged s e (mkFrame pd (events s)) (HI _ _ Hpd)) as Hk.
  destruct (on_tick s e _) as [r fr]. simpl in *.
  by apply map_Forall_insert_2.
Qed.

Lemma crossover_pairs_dict_lookup ps p pd :
  create_pairs_dict ps !! p = Some pd -> pd = attr_dict.
Proof.
  unfold create_pairs_dict.
  assert (forall (d : gmap string PairState),
    map_Forall (fun _ x => x = attr_dict) d ->
    map_Forall (fun _ x => x = attr_dict)
      (foldl (fun d p => <[p := attr_dict]> d) d ps)) as H.
  { induction ps as [|q ps IH]; intros d Hd; simpl; [done|].
    apply IH. by apply map_Forall_insert_2. }
  intros Hl. exact (H ∅ (map_Forall_empty _) p pd Hl).
Qed.

Lemma reachable_averaged ps evs0 sw lw evs :
  map_Forall (fun _ => averaged) (pairs_dict (feed evs (__init__ ps evs0 sw lw))).
Proof.
  assert (map_Forall (fun _ => averaged) (pairs_dict (__init__ ps evs0 sw lw))) as H.
  { intros p pd Hl. simpl in Hl. rewrite (crossover_pairs_dict_lookup _ _ _ Hl).
    split; simpl; [lia | done]. }
  revert H. generalize (__init__ ps evs0 sw lw).
  induction evs as [|e evs IH]; intros s Hs; simpl; [done|].
  apply IH. by apply calculate_signals_averaged.
Qed.

Lemma calculate_signals_lookup e s pd :
  type e = "TICK" ->
  pairs_dict s !! instrument e = Some pd ->
  pairs_dict (snd (calculate_signals e s)) !! instrument e
    = Some (fr_pd (snd (on_tick s e (mkFrame pd (events s))))).
Proof.
  intros Hty Hpd. unfold calculate_signals. rewrite Hty, Hpd. simpl.
  destruct (on_tick s e _) as [r fr]. simpl. apply lookup_insert_eq.
Qed.



(** ** The scenario of the price step *)

(** C9: with [short_window=2] (and the default [long_window=2000]) and the
    bid prices 1, 1, 1, 2, 2, 2 on one instrument, nothing is emitted on
    the first three ticks; the fourth tick, processed at tick count 3,
    leaves the short average above the long one and emits one buy
    signal; the last two ticks emit nothing more. *)
Theorem price_step_one_buy :
  events (feed (take 1 step_prices) short2_strategy) = [] /\
  events (feed (take 2 step_prices) short2_strategy) = [] /\
  events (feed (take 3 step_prices) short2_strategy) = [] /\
  (exists pd,
     pairs_dict (feed (take 3 step_prices) short2_strategy) !! "EURUSD" = Some pd /\
     pd_ticks pd = 3 /\ pd_invested pd = false) /\
  events (feed (take 4 step_prices) short2_strategy) = [buy_signal 3] /\
  (exists pd s l,
     pairs_dict (feed (take 4 step_prices) short2_strategy) !! "EURUSD" = Some pd /\
     pd_short_sma pd = Some (Fin s) /\ pd_long_sma pd = Some (Fin l) /\
     (l < s)%Qc /\ pd_invested pd = true) /\
  events (feed (take 5 step_prices) short2_strategy) = [buy_signal 3] /\
  events (feed step_prices short2_strategy) = [buy_signal 3].
Proof.
  split; [vm_compute; reflexivity|].
  split; [vm_compute; reflexivity|].
  split; [vm_compute; reflexivity|].
  split.
  { eexists. split; [vm_compute; reflexivity|]. split; reflexivity. }
  split; [vm_compute; reflexivity|].
  split.
  { eexists _, _, _. split; [vm_compute; reflexivity|].
    split; [reflexivity|]. split; [reflexivity|].
    split; [unfold Qclt; vm_compute; reflexivity | reflexivity]. }
  split; vm_compute; reflexivity.
Qed.

(** ** The scenario for every long window above 2 *)

Ltac roll_step :=
  first [ lazymatch goal with
          | |- wp (calc_rolling_sma (Some _) _ _) _ _ _ =>
              unfold wp at 1; rewrite calc_rolling_sma_spec by done
          end
        | wp_value_step ];
  mac_simpl; cbn [rolling_average].

Lemma on_tick_run self e t inv so lo p evs :
  short_window self <> 0 -> long_window self <> 0 -> t <> 0 -> bid e = Fin p ->
  on_tick self e (mkFrame (mkPairState t inv (Some (Fin so)) (Some (Fin lo))) evs) =
    let so' := roll so (short_window self) p in
    let lo' := roll lo (long_window self) p in
    let buy := (short_window self <? t) && Qc_ltb lo' so' && negb inv in
    let inv1 := if buy then true else inv in
    let sell := (short_window self <? t) && Qc_ltb so' lo' && inv1 in
    (Returned tt,
     mkFrame (mkPairState (t + 1) (if sell then false else inv1)
                (Some (Fin so')) (Some (Fin lo')))
       ((evs ++ (if buy then [mkSignalEvent (instrument e) "market" "buy" (time e)] else []))
            ++ (if sell then [mkSignalEvent (instrument e) "market" "sell" (time e)] else []))).
Proof.
  intros Hsw Hlw Ht Hp. cbv zeta.
  match goal with |- ?c ?fr = (Returned tt, ?fr') =>
    assert (wp c (fun _ s' => s' = fr') (fun _ _ => False) fr) as Hwp
  end.
  { unfold on_tick, update_smas, crossover. cbv zeta. rewrite Hp.
    apply Z.eqb_neq in Ht.
    wp_step. wp_step. wp_step. mac_simpl. rewrite Ht.
    repeat roll_step.
    all: fold (roll so (short_window self) p) in *;
         fold (roll lo (long_window self) p) in *.
    all: destruct (Qc_ltb (roll lo (long_window self) p) (roll so (short_window self) p));
         destruct (Qc_ltb (roll so (short_window self) p) (roll lo (long_window self) p));
         destruct inv; simpl in *; rewrite ?app_nil_r; try done. }
  destruct (on_tick self e _) as [r fr'] eqn:Hrun.
  pose proof (wp_run _ _ _ _ _ _ Hwp Hrun) as Hr.
  destruct r as [[]|]; [by subst|done].
Qed.
Lemma roll_le (x c P : Qc) (lw : Z) :
  3 <= lw -> (x <= c)%Qc -> (c <= P)%Qc ->
  (roll x lw P <= (Q2Qc 2 * c + P) / Q2Qc 3)%Qc.
Proof.
  intros Hlw Hx Hc. unfold roll.
  unfold Qcle, Qcdiv, Qcinv, Qcmult, Qcplus, Q2Qc in *. simpl this in *.
  rewrite ?Qred_correct in *.
  assert (inject_Z (lw - 1) == inject_Z lw - 1)%Q as ->.
  { unfold Z.sub. rewrite inject_Z_plus. reflexivity. }
  assert (3 <= inject_Z lw)%Q as HL.
  { change 3%Q with (inject_Z 3). rewrite <- Zle_Qle. done. }
  set (L := inject_Z lw) in *.
  apply Qle_shift_div_r; [lra|].
  assert (0 <= (this P - this x) * (L - 3))%Q by (apply Qmult_le_0_compat; lra).
  assert (0 <= (this c - this x) * L)%Q by (apply Qmult_le_0_compat; lra).
  clearbody L.
  assert ((2 * c + P) * / 3 * L == (2 * c * L + P * L) / 3)%Q as -> by field.
  apply Qle_shift_div_l; [reflexivity|]. lra.
Qed.

Lemma first_tick lw tm p :
  snd (calculate_signals (price_tick tm p) (__init__ ["EURUSD"] [] 2 lw))
  = crossover_state lw 1 false (Q2Qc (inject_Z p)) (Q2Qc (inject_Z p)) [].
Proof.
  unfold calculate_signals, crossover_state, __init__, create_pairs_dict.
  simpl. rewrite lookup_insert_eq. simpl. by rewrite insert_insert_eq.
Qed.

Lemma next_tick lw t inv so lo evs tm p :
  lw <> 0 -> t <> 0 ->
  snd (calculate_signals (price_tick tm p) (crossover_state lw t inv so lo evs))
  = let so' := roll so 2 (Q2Qc (inject_Z p)) in
    let lo' := roll lo lw (Q2Qc (inject_Z p)) in
    let buy := (2 <? t) && Qc_ltb lo' so' && negb inv in
    let inv1 := if buy then true else inv in
    let sell := (2 <? t) && Qc_ltb so' lo' && inv1 in
    crossover_state lw (t + 1) (if sell then false else inv1) so' lo'
      ((evs ++ (if buy then [buy_signal tm] else []))
         ++ (if sell then [mkSignalEvent "EURUSD" "market" "sell" tm] else [])).
Proof.
  intros Hlw Ht. unfold calculate_signals, crossover_state. simpl.
  rewrite lookup_insert_eq.
  rewrite (on_tick_run _ _ t inv so lo (Q2Qc (inject_Z p))) by done.
  simpl. by rewrite insert_insert_eq.
Qed.


Lemma rolls_le lw ps : forall x c,
  3 <= lw -> (x <= c)%Qc -> below c ps ->
  (rolls x lw ps <= roll_bound c ps)%Qc.
Proof.
  induction ps as [|p r IH]; intros x c Hlw Hx Hb; simpl; [done|].
  destruct Hb as [Hc Hb]. apply IH; [done| |done]. by apply roll_le.
Qed.

Lemma Qc_ltb_of_le_lt (x c y : Qc) :
  (x <= c)%Qc -> (c < y)%Qc -> Qc_ltb x y = true /\ Qc_ltb y x = false.
Proof.
  intros Hx Hc. assert (x < y)%Qc as Hlt by (by apply Qcle_lt_trans with c).
  split; [by apply Qc_ltb_lt|]. apply Qc_ltb_ge. by apply Qclt_le_weak.
Qed.

Lemma Qc_ltb_of_le_le (x c y : Qc) :
  (x <= c)%Qc -> (c <= y)%Qc -> Qc_ltb y x = false.
Proof. intros Hx Hc. apply Qc_ltb_ge. by apply Qcle_trans with c. Qed.

Lemma feed_snoc evs e s :
  feed (evs ++ [e]) s = snd (calculate_signals e (feed evs s)).
Proof. unfold feed. by rewrite foldl_app. Qed.

Lemma rolls_snoc o w ps p : rolls o w (ps ++ [p]) = roll (rolls o w ps) w p.
Proof. revert o. induction ps as [|q r IH]; intros o; simpl; [done | apply IH]. Qed.

Section any_long_window.
Variable lw : Z.
Hypothesis long_window_above : 2 < lw.

Local Abbreviation s0 := (__init__ ["EURUSD"] [] 2 lw).

(** The long average stays below the short one once the price has
    stepped up. *)
Lemma long_below_short ps :
  below one ps ->
  (roll_bound one ps <= rolls one 2 ps)%Qc ->
  Qc_ltb (rolls one 2 ps) (rolls one lw ps) = false.
Proof.
  intros Hb Hc. apply Qc_ltb_of_le_le with (roll_bound one ps); [|done].
  apply rolls_le; [lia | apply Qcle_refl | done].
Qed.

Lemma long_under_short ps :
  below one ps ->
  (roll_bound one ps < rolls one 2 ps)%Qc ->
  Qc_ltb (rolls one lw ps) (rolls one 2 ps) = true.
Proof.
  intros Hb Hc. apply (Qc_ltb_of_le_lt _ (roll_bound one ps)); [|done].
  apply rolls_le; [lia | apply Qcle_refl | done].
Qed.

Ltac fold_rolls :=
  change (Q2Qc (inject_Z 1)) with one; change (Q2Qc (inject_Z 2)) with two;
  cbv zeta; rewrite <- !rolls_snoc;
  repeat match goal with
  | |- context [rolls ?o ?w (?l ++ [?p])] =>
      let l' := eval cbn [app] in (l ++ [p]) in
      change (rolls o w (l ++ [p])) with (rolls o w l')
  end.

Lemma after_tick_1 :
  feed (take 1 step_prices) s0 = crossover_state lw 1 false (rolls one 2 []) (rolls one lw []) [].
Proof. apply first_tick. Qed.

Lemma after_tick_2 :
  feed (take 2 step_prices) s0
  = crossover_state lw 2 false (rolls one 2 [one]) (rolls one lw [one]) [].
Proof.
  change (take 2 step_prices) with (take 1 step_prices ++ [price_tick 1 1]).
  rewrite feed_snoc, after_tick_1, next_tick by lia. fold_rolls. reflexivity.
Qed.

Lemma after_tick_3 :
  feed (take 3 step_prices) s0
  = crossover_state lw 3 false (rolls one 2 [one; one]) (rolls one lw [one; one]) [].
Proof.
  change (take 3 step_prices) with (take 2 step_prices ++ [price_tick 2 1]).
  rewrite feed_snoc, after_tick_2, next_tick by lia. fold_rolls. reflexivity.
Qed.

Lemma after_tick_4 :
  feed (take 4 step_prices) s0
  = crossover_state lw 4 true (rolls one 2 [one; one; two])
      (rolls one lw [one; one; two]) [buy_signal 3].
Proof.
  change (take 4 step_prices) with (take 3 step_prices ++ [price_tick 3 2]).
  rewrite feed_snoc, after_tick_3, next_tick by lia. fold_rolls.
  rewrite long_under_short, long_below_short.
  - reflexivity.
  - repeat split; unfold Qcle; vm_compute; discriminate.
  - unfold Qcle. vm_compute. discriminate.
  - repeat split; unfold Qcle; vm_compute; discriminate.
  - unfold Qclt. vm_compute. reflexivity.
Qed.

Lemma after_tick_5 :
  feed (take 5 step_prices) s0
  = crossover_state lw 5 true (rolls one 2 [one; one; two; two])
      (rolls one lw [one; one; two; two]) [buy_signal 3].
Proof.
  change (take 5 step_prices) with (take 4 step_prices ++ [price_tick 4 2]).
  rewrite feed_snoc, after_tick_4, next_tick by lia. fold_rolls.
  rewrite long_below_short.
  - match goal with |- context [Qc_ltb ?x ?y] => generalize (Qc_ltb x y) end.
    intros b. destruct b; reflexivity.
  - repeat split; unfold Qcle; vm_compute; discriminate.
  - unfold Qcle. vm_compute. discriminate.
Qed.

Lemma after_tick_6 :
  feed step_prices s0
  = crossover_state lw 6 true (rolls one 2 [one; one; two; two; two])
      (rolls one lw [one; one; two; two; two]) [buy_signal 3].
Proof.
  change step_prices with (take 5 step_prices ++ [price_tick 5 2]).
  rewrite feed_snoc, after_tick_5, next_tick by lia. fold_rolls.
  rewrite long_below_short.
  - match goal with |- context [Qc_ltb ?x ?y] => generalize (Qc_ltb x y) end.
    intros b. destruct b; reflexivity.
  - repeat split; unfold Qcle; vm_compute; discriminate.
  - unfold Qcle. vm_compute. discriminate.
Qed.

Theorem price_step_any_long_window :
  events (feed (take 1 step_prices) s0) = [] /\
  events (feed (take 2 step_prices) s0) = [] /\
  events (feed (take 3 step_prices) s0) = [] /\
  events (feed (take 4 step_prices) s0) = [buy_signal 3] /\
  events (feed (take 5 step_prices) s0) = [buy_signal 3] /\
  events (feed step_prices s0) = [buy_signal 3].
Proof.
  rewrite after_tick_1, after_tick_2, after_tick_3, after_tick_4,
    after_tick_5, after_tick_6.
  repeat split; reflexivity.
Qed.
End any_long_window.

(** With [long_window = short_window = 2] the two averages are equal at
    every tick, and the same prices emit nothing. *)
Lemma price_step_equal_windows :
  events (feed step_prices (__init__ ["EURUSD"] [] 2 2)) = [].
Proof. vm_compute. reflexivity. Qed.

(** ** The dictionary of pairs *)

Lemma crossover_pairs_dict_from ps p : forall d : gmap string PairState,
  foldl (fun d p => <[p := attr_dict]> d) d ps !! p =
    if bool_decide (p ∈ ps) then Some attr_dict else d !! p.
Proof.
  induction ps as [|q ps IH]; intros d; simpl; [done|].
  rewrite IH. destruct (decide (p ∈ ps)) as [Hin|Hin].
  - rewrite !bool_decide_eq_true_2; [done | by right | done].
  - rewrite (bool_decide_eq_false_2 _ Hin).
    destruct (decide (p = q)) as [->|Hne].
    + rewrite lookup_insert_eq, bool_decide_eq_true_2; [done | by left].
    + rewrite lookup_insert_ne by done.
      rewrite bool_decide_eq_false_2; [done|].
      rewrite elem_of_cons. tauto.
Qed.

(** X12: [create_pairs_dict] tracks every instrument of the list, and no
    other, each with its own copy of the initial state: no tick counted,
    no position and no average. *)
Theorem create_pairs_dict_tracks_instruments (ps : list string) (p : string) :
  create_pairs_dict ps !! p =
    if bool_decide (p ∈ ps) then Some attr_dict else None.
Proof. unfold create_pairs_dict. by rewrite crossover_pairs_dict_from. Qed.

Lemma crossover_signals_tracked e s p :
  is_Some (pairs_dict (snd (calculate_signals e s)) !! p) <->
  is_Some (pairs_dict s !! p).
Proof.
  unfold calculate_signals.
  destruct (String.eqb (type e) "TICK"); [|done].
  destruct (pairs_dict s !! instrument e) eqn:Hpd; [|done].
  destruct (on_tick s e _) as [r fr]. simpl.
  destruct (decide (instrument e = p)) as [<-|Hne].
  - rewrite lookup_insert_eq, Hpd. split; eauto.
  - by rewrite lookup_insert_ne.
Qed.

Lemma crossover_feed_tracked evs : forall s p,
  is_Some (pairs_dict (feed evs s) !! p) <-> is_Some (pairs_dict s !! p).
Proof.
  induction evs as [|e evs IH]; intros s p; simpl; [done|].
  fold (feed evs (snd (calculate_signals e s))).
  rewrite IH. apply crossover_signals_tracked.
Qed.

Lemma reachable_tracked_iff ps evs0 sw lw evs p :
  is_Some (pairs_dict (feed evs (__init__ ps evs0 sw lw)) !! p) <-> p ∈ ps.
Proof.
  rewrite crossover_feed_tracked. unfold __init__, create_pairs_dict.
  cbn [pairs_dict]. rewrite crossover_pairs_dict_from, lookup_empty.
  destruct (decide (p ∈ ps)) as [Hin|Hin].
  - rewrite bool_decide_eq_true_2 by done. split; eauto.
  - rewrite bool_decide_eq_false_2 by done. split; [by intros [? ?] | done].
Qed.

(** X13: a tick of an instrument that is not in the list of pairs the
    strategy was created with raises [KeyError], in every state the
    strategy can reach, and changes nothing. *)
Theorem untracked_instrument_key_error (ps : list string)
    (evs0 : list SignalEvent) (sw lw : Z) (evs : list Event) (e : Event) :
  type e = "TICK" ->
  instrument e ∉ ps ->
  calculate_signals e (feed evs (__init__ ps evs0 sw lw))
    = (Raised KeyError, feed evs (__init__ ps evs0 sw lw)).
Proof.
  intros Hty Hin. unfold calculate_signals. rewrite Hty. simpl.
  destruct (pairs_dict (feed evs (__init__ ps evs0 sw lw)) !! instrument e)
    as [pd|] eqn:Hpd; [|done].
  exfalso. apply Hin. apply (reachable_tracked_iff ps evs0 sw lw evs). eauto.
Qed.

Lemma untracked_instrument_key_error_witness :
  calculate_signals (gbp_tick 3 1) (feed step_prices short2_strategy)
    = (Raised KeyError, feed step_prices short2_strategy).
Proof.
  apply (untracked_instrument_key_error ["EURUSD"] [] 2 2000 step_prices
           (gbp_tick 3 1)).
  - reflexivity.
  - rewrite list_elem_of_singleton. discriminate.
Defined.

(** ** The event queue is never read *)

Lemma appends_calc_rolling_sma {P} o w p :
  constant (@calc_rolling_sma (Frame P) o w p).
Proof. unfold calc_rolling_sma. repeat appends_step. Qed.

Lemma appends_on_tick self e : appends (on_tick self e).
Proof.
  unfold on_tick, update_smas, crossover. cbv zeta.
  repeat first [ apply appends_constant, appends_calc_rolling_sma | appends_step ].
Qed.

Lemma on_tick_same_windows s1 s2 e fr :
  short_window s1 = short_window s2 -> long_window s1 = long_window s2 ->
  on_tick s1 e fr = on_tick s2 e fr.
Proof.
  intros Hsw Hlw. unfold on_tick, update_smas. cbv zeta. by rewrite Hsw, Hlw.
Qed.

Lemma calculate_signals_isolated e s1 s2 p :
  short_window s1 = short_window s2 -> long_window s1 = long_window s2 ->
  pairs_dict s1 !! p = pairs_dict s2 !! p ->
  String.eqb (type e) "TICK" && String.eqb (instrument e) p = true ->
  pairs_dict (snd (calculate_signals e s1)) !! p
    = pairs_dict (snd (calculate_signals e s2)) !! p.
Proof.
  intros Hsw Hlw Hp [Hty Hi]%andb_prop. apply String.eqb_eq in Hi. subst p.
  unfold calculate_signals. rewrite Hty. simpl. rewrite <- Hp.
  destruct (pairs_dict s1 !! instrument e) as [pd|] eqn:Hpd;
    [|simpl; congruence].
  rewrite (appends_on_tick s1 e pd (events s1)),
    (on_tick_same_windows s2 s1 e) by done.
  rewrite (appends_on_tick s1 e pd (events s2)).
  destruct (on_tick s1 e (mkFrame pd [])) as [r fr]. simpl.
  by rewrite !lookup_insert_eq.
Qed.

Lemma calculate_signals_other e s p :
  String.eqb (type e) "TICK" && String.eqb (instrument e) p = false ->
  pairs_dict (snd (calculate_signals e s)) !! p = pairs_dict s !! p.
Proof.
  intros Hne. unfold calculate_signals.
  destruct (String.eqb (type e) "TICK"); [|done]. simpl in Hne.
  apply String.eqb_neq in Hne.
  destruct (pairs_dict s !! instrument e) as [pd|]; [|done].
  destruct (on_tick s e _) as [r fr]. simpl. by apply lookup_insert_ne.
Qed.

Lemma feed_isolated p evs : forall s1 s2,
  short_window s1 = short_window s2 -> long_window s1 = long_window s2 ->
  pairs_dict s1 !! p = pairs_dict s2 !! p ->
  pairs_dict (feed evs s1) !! p = pairs_dict (feed (ticks_of p evs) s2) !! p.
Proof.
  induction evs as [|e evs IH]; intros s1 s2 Hsw Hlw Hp; [done|].
  unfold ticks_of. cbn [List.filter feed foldl].
  fold (feed evs (snd (calculate_signals e s1))). fold (ticks_of p evs).
  destruct (crossover_signals_config e s1) as (_ & Hsw1 & Hlw1).
  destruct (String.eqb (type e) "TICK" && String.eqb (instrument e) p) eqn:Hacc.
  - cbn [foldl]. fold (feed (ticks_of p evs) (snd (calculate_signals e s2))).
    destruct (crossover_signals_config e s2) as (_ & Hsw2 & Hlw2).
    apply IH; [congruence.. |]. by apply calculate_signals_isolated.
  - apply IH; [congruence..|]. rewrite <- Hp. by apply calculate_signals_other.
Qed.

(** X14: the instruments do not interact: the count, the averages and the
    position of an instrument after a run of events are those it has
    after its own ticks alone, whatever the other events of the run
    were, including those that raised an exception. *)
Theorem instruments_isolated (self : Self) (evs : list Event) (p : string) :
  pairs_dict (feed evs self) !! p
    = pairs_dict (feed (ticks_of p evs) self) !! p.
Proof. by apply feed_isolated. Qed.

(** ** The signals of one call *)

Lemma Qc_ltb_asym x y : Qc_ltb x y = true -> Qc_ltb y x = false.
Proof. rewrite Qc_ltb_lt, Qc_ltb_ge. apply Qclt_le_weak. Qed.

Lemma crossover_spec e s :
  wp (crossover e) (fun _ s' => crossed e s s') (fun _ s' => crossed e s s') s.
Proof.
  destruct s as [[t inv [ss|] [ls|]] evs]; unfold crossover, crossed; cbv zeta.
  all: repeat (wp_case_step; mac_simpl; cbn [num]).
  all: try (left; split; reflexivity).
  all: repeat match goal with
       | Hx : ?v = Fin _ |- _ => is_var v; subst v
       | Hx : Fin _ = Fin _ |- _ => injection Hx as <-
       | Hx : _ && _ = true |- _ => apply andb_prop in Hx as [? ?]
       end.
  all: try match goal with
       | H1 : Qc_ltb ?x ?y = true, H2 : Qc_ltb ?y ?x = true |- _ =>
           rewrite (Qc_ltb_asym _ _ H1) in H2; discriminate H2
       end.
  all: try match goal with
       | Hn : negb ?b = true |- _ => destruct b; try discriminate Hn
       end.
  all: try discriminate.
  all: first [ right; left; repeat split; done
             | right; right; repeat split; done ].
Qed.

Lemma update_smas_invested self e s :
  wp (update_smas self e)
     (fun _ s' => fr_events s' = fr_events s /\
                  pd_invested (fr_pd s') = pd_invested (fr_pd s))
     (fun _ s' => fr_events s' = fr_events s /\
                  pd_invested (fr_pd s') = pd_invested (fr_pd s)) s.
Proof. unfold update_smas. cbv zeta. repeat (wp_step; mac_simpl); done. Qed.

Lemma crossed_after e s s1 s2 :
  fr_events s1 = fr_events s ->
  pd_invested (fr_pd s1) = pd_invested (fr_pd s) ->
  crossed e s1 s2 -> crossed e s s2.
Proof. unfold crossed. intros -> ->. done. Qed.

Lemma on_tick_crossed self e s :
  wp (on_tick self e) (fun _ s' => crossed e s s') (fun _ s' => crossed e s s') s.
Proof.
  unfold on_tick. wp_step. wp_use update_smas_invested.
  - destruct H as [Hev Hinv]. wp_step. wp_step. wp_step.
    apply wp_when; intros _.
    + wp_use crossover_spec.
      * repeat (wp_step; mac_simpl).
        apply (crossed_after e s s' _ Hev Hinv).
        unfold crossed in *. mac_simpl. exact H.
      * by apply (crossed_after e s s' _ Hev Hinv).
    + repeat (wp_step; mac_simpl).
      apply (crossed_after e s s' _ Hev Hinv). left. done.
  - left. done.
Qed.

Lemma calculate_signals_crossed e s :
  snd (calculate_signals e s) = s \/
  exists pd fr',
    pairs_dict s !! instrument e = Some pd /\
    crossed e (mkFrame pd (events s)) fr' /\
    events (snd (calculate_signals e s)) = fr_events fr' /\
    pairs_dict (snd (calculate_signals e s))
      = <[instrument e := fr_pd fr']> (pairs_dict s).
Proof.
  unfold calculate_signals.
  destruct (String.eqb (type e) "TICK"); [|by left].
  destruct (pairs_dict s !! instrument e) as [pd|] eqn:Hpd; [|by left].
  right. exists pd.
  pose proof (on_tick_crossed s e (mkFrame pd (events s))) as Hwp.
  apply (wp_snd _ (fun s' => crossed e (mkFrame pd (events s)) s')) in Hwp.
  destruct (on_tick s e _) as [r fr']. by exists fr'.
Qed.

(** X15: one call of [calculate_signals] adds to the event queue nothing,
    one buy or one sell, never both, and removes nothing from it; the
    signal put is a market order for the instrument of the event,
    stamped with the time of the event. *)
Theorem at_most_one_signal (self : Self) (e : Event) :
  exists new,
    events (snd (calculate_signals e self)) = events self ++ new /\
    put_by e new.
Proof.
  destruct (calculate_signals_crossed e self)
    as [-> | (pd & fr' & _ & Hc & -> & _)].
  - exists []. split; [by rewrite app_nil_r | by left].
  - destruct Hc as [[-> _] | [[-> _] | [-> _]]]; simpl.
    + exists []. split; [by rewrite app_nil_r | by left].
    + eexists. split; [done | by right; left].
    + eexists. split; [done | by right; right].
Qed.

(** ** Long only *)

Lemma sides_of_snoc p new s :
  sides_of p (new ++ [s]) =
    sides_of p new ++ (if String.eqb (sig_instrument s) p then [sig_side s] else []).
Proof.
  unfold sides_of. rewrite List.filter_app, map_app. simpl.
  by destruct (String.eqb (sig_instrument s) p).
Qed.

Lemma head_snoc_nonempty {A} (l : list A) x y :
  last l = Some y -> head (l ++ [x]) = head l.
Proof. by destruct l. Qed.

Lemma long_only_initial ps : long_only [] (create_pairs_dict ps).
Proof.
  split; [constructor|]. intros p. split; [done|]. split; [done|].
  unfold create_pairs_dict. rewrite crossover_pairs_dict_from.
  destruct (bool_decide (p ∈ ps)); simpl; [|by rewrite lookup_empty].
  split; discriminate.
Qed.

Lemma long_only_buy new d q t pd pd' :
  long_only new d -> d !! q = Some pd ->
  pd_invested pd = false -> pd_invested pd' = true ->
  long_only (new ++ [mkSignalEvent q "market" "buy" t]) (<[q := pd']> d).
Proof.
  intros [Hall H] Hq Hinv Hinv'. split.
  { apply Forall_app_2; [done|]. constructor; [by left | constructor]. }
  intros p. destruct (H p) as (Halt & Hhd & Hd).
  rewrite sides_of_snoc. cbn [sig_instrument sig_side].
  destruct (String.eqb q p) eqn:Hqp.
  - apply String.eqb_eq in Hqp. subst p. rewrite Hq in Hd.
    rewrite lookup_insert_eq, last_snoc.
    assert (last (sides_of q new) <> Some "buy") as Hlast.
    { intros Hl. apply Hd in Hl. congruence. }
    split; [by apply alternating_snoc|]. split; [|done].
    destruct (sides_of q new) as [|a l] eqn:Hs; [discriminate | exact Hhd].
  - apply String.eqb_neq in Hqp. rewrite app_nil_r, lookup_insert_ne by done.
    done.
Qed.

Lemma long_only_sell new d q t pd pd' :
  long_only new d -> d !! q = Some pd ->
  pd_invested pd = true -> pd_invested pd' = false ->
  long_only (new ++ [mkSignalEvent q "market" "sell" t]) (<[q := pd']> d).
Proof.
  intros [Hall H] Hq Hinv Hinv'. split.
  { apply Forall_app_2; [done|]. constructor; [by right | constructor]. }
  intros p. destruct (H p) as (Halt & Hhd & Hd).
  rewrite sides_of_snoc. cbn [sig_instrument sig_side].
  destruct (String.eqb q p) eqn:Hqp.
  - apply String.eqb_eq in Hqp. subst p. rewrite Hq in Hd.
    rewrite lookup_insert_eq, last_snoc.
    assert (last (sides_of q new) = Some "buy") as Hlast by (by apply Hd).
    split; [apply alternating_snoc; [done | by rewrite Hlast]|].
    split; [|split; [congruence | discriminate]].
    by rewrite (head_snoc_nonempty _ _ _ Hlast).
  - apply String.eqb_neq in Hqp. rewrite app_nil_r, lookup_insert_ne by done.
    done.
Qed.

Lemma long_only_same new d q pd pd' :
  long_only new d -> d !! q = Some pd ->
  pd_invested pd' = pd_invested pd ->
  long_only new (<[q := pd']> d).
Proof.
  intros [Hall H] Hq Hinv. split; [done|].
  intros p. destruct (H p) as (Halt & Hhd & Hd).
  split; [done|]. split; [done|].
  destruct (decide (q = p)) as [->|Hne].
  - rewrite Hq in Hd. by rewrite lookup_insert_eq, Hinv.
  - by rewrite lookup_insert_ne.
Qed.

Lemma feed_long_only evs0 evs : forall s,
  (exists new, events s = evs0 ++ new /\ long_only new (pairs_dict s)) ->
  exists new, events (feed evs s) = evs0 ++ new /\
              long_only new (pairs_dict (feed evs s)).
Proof.
  induction evs as [|e evs IH]; intros s H; simpl; [done|].
  fold (feed evs (snd (calculate_signals e s))).
  apply IH. destruct H as (new & Hev & Hlo).
  destruct (calculate_signals_crossed e s)
    as [-> | (pd & fr' & Hpd & Hc & -> & ->)]; [by exists new|].
  destruct Hc as [[-> Hinv] | [(-> & Hinv & Hinv') | (-> & Hinv & Hinv')]];
    simpl in *.
  - exists new. split; [done|]. by eapply long_only_same.
  - eexists. rewrite Hev, <- app_assoc. split; [done|].
    by eapply long_only_buy.
  - eexists. rewrite Hev, <- app_assoc. split; [done|].
    by eapply long_only_sell.
Qed.

(** X16: the strategy is long only: for every instrument, the signals put
    since the creation of the strategy are buys and sells in turn, and
    the first one is a buy; no instrument is sold before it was bought
    or bought twice in a row. *)
Theorem long_only_signals (ps : list string) (evs0 : list SignalEvent)
    (sw lw : Z) (evs : list Event) (p : string) :
  exists new,
    events (feed evs (__init__ ps evs0 sw lw)) = evs0 ++ new /\
    buys_and_sells new /\
    alternating (sides_of p new) = true /\
    head (sides_of p new) <> Some "sell".
Proof.
  destruct (feed_long_only evs0 evs (__init__ ps evs0 sw lw))
    as (new & Hev & Hall & H).
  - exists []. split; [by rewrite app_nil_r | apply long_only_initial].
  - exists new. destruct (H p) as (Halt & Hhd & _). done.
Qed.

(** ** The rolling average as a weighted mean *)

Lemma inject_Z_pred w : (inject_Z (w - 1) == inject_Z w - 1)%Q.
Proof. unfold Z.sub. rewrite inject_Z_plus. reflexivity. Qed.

Lemma roll_between o w p :
  1 <= w ->
  ((o <= p -> o <= roll o w p /\ roll o w p <= p) /\
   (p <= o -> p <= roll o w p /\ roll o w p <= o))%Qc.
Proof.
  intros Hw. unfold roll.
  unfold Qcle, Qcdiv, Qcinv, Qcmult, Qcplus, Q2Qc. simpl this.
  rewrite ?Qred_correct. rewrite inject_Z_pred.
  assert (1 <= inject_Z w)%Q as HL.
  { change 1%Q with (inject_Z 1). by rewrite <- Zle_Qle. }
  set (L := inject_Z w) in *. clearbody L.
  split; intros Hop.
  - assert (0 <= (this p - this o) * (L - 1))%Q
      by (apply Qmult_le_0_compat; lra).
    split; [apply Qle_shift_div_l | apply Qle_shift_div_r]; lra.
  - assert (0 <= (this o - this p) * (L - 1))%Q
      by (apply Qmult_le_0_compat; lra).
    split; [apply Qle_shift_div_l | apply Qle_shift_div_r]; lra.
Qed.



(** ** Finite prices *)

Lemma wp_calc_rolling_sma {S} o w p (Q : Decimal -> S -> Prop) E s :
  (w <> 0 -> Q (Fin (roll o w p)) s) ->
  (w = 0 -> forall ex, ex = ZeroDivisionError \/ ex = InvalidOperation -> E ex s) ->
  wp (calc_rolling_sma (Some (Fin o)) w (Fin p)) Q E s.
Proof.
  intros HQ HE. destruct (decide (w = 0)) as [->|Hw].
  - unfold wp, calc_rolling_sma, bind, num, ret, dec_div, Decimal_of_Z.
    cbn [dec_mul dec_add].
    change (Qc_eqb (Q2Qc (inject_Z 0)) 0%Qc) with true. cbv iota.
    match goal with |- context [Qc_eqb ?x 0%Qc] => destruct (Qc_eqb x 0%Qc) end;
      apply HE; tauto.
  - unfold wp. rewrite calc_rolling_sma_spec by done. by apply HQ.
Qed.

Lemma crossover_finite e t inv x y evs :
  wp (crossover e)
     (fun _ s' => pd_ticks (fr_pd s') = t /\
                  pd_short_sma (fr_pd s') = Some (Fin x) /\
                  pd_long_sma (fr_pd s') = Some (Fin y))
     (fun _ _ => False)
     (mkFrame (mkPairState t inv (Some (Fin x)) (Some (Fin y))) evs).
Proof. unfold crossover. cbv zeta. repeat (wp_value_step; mac_simpl); done. Qed.

Lemma after_update self e t inv x y evs :
  0 <= t ->
  wp (t0 <- rd pd_ticks ;;
      when (short_window self <? t0) (crossover e) ;;
      t1 <- rd pd_ticks ;;
      wr (set_ticks (t1 + 1)))
     (fun _ s' => settled (fr_pd s') /\ pd_ticks (fr_pd s') = t + 1)
     (fun _ _ => False)
     (mkFrame (mkPairState t inv (Some (Fin x)) (Some (Fin y))) evs).
Proof.
  intros Ht. wp_step. wp_step. wp_step. mac_simpl. apply wp_when; intros _.
  - wp_use crossover_finite; [|done]. destruct H as (Ht' & Hs & Hl).
    repeat (wp_step; mac_simpl). unfold settled. mac_simpl.
    rewrite Ht', Hs, Hl. split; [|done]. split; [lia | eauto].
  - repeat (wp_step; mac_simpl). unfold settled. mac_simpl.
    split; [|done]. split; [lia | eauto].
Qed.

Lemma on_tick_settled self e s :
  finite (bid e) -> settled (fr_pd s) ->
  wp (on_tick self e)
     (fun _ s' => settled (fr_pd s') /\
                  pd_ticks (fr_pd s') = pd_ticks (fr_pd s) + 1 /\
                  (pd_ticks (fr_pd s) = 0 \/
                   short_window self <> 0 /\ long_window self <> 0))
     (fun ex s' => settled (fr_pd s') /\
                   pd_ticks (fr_pd s') = pd_ticks (fr_pd s) /\
                   fr_events s' = fr_events s /\
                   (ex = ZeroDivisionError \/ ex = InvalidOperation) /\
                   (short_window self = 0 \/ long_window self = 0) /\
                   pd_ticks (fr_pd s) <> 0) s.
Proof.
  intros Hbid [H0 Hset]. destruct s as [[t inv ss ls] evs]. mac_simpl.
  destruct (bid e) as [p|] eqn:Hp; [clear Hbid | done].
  unfold on_tick. wp_step. unfold update_smas. cbv zeta. rewrite Hp.
  wp_step. wp_step. mac_simpl. wp_step.
  - apply Z.eqb_eq in Hb. subst t.
    wp_step. wp_step. mac_simpl. wp_step. mac_simpl.
    wp_use after_update; [done| |done].
    destruct H as [Hs Ht]. split; [done|]. split; [done | by left].
  - apply Z.eqb_neq in Hb. destruct (Hset Hb) as (x & y & -> & ->).
    wp_step. wp_step. mac_simpl. wp_step.
    apply wp_calc_rolling_sma; [intros Hsw | intros Hsw ex Hex].
    + wp_step. wp_step. mac_simpl. wp_step. wp_step. mac_simpl. wp_step.
      apply wp_calc_rolling_sma; [intros Hlw | intros Hlw ex Hex].
      * wp_step. mac_simpl.
        wp_use after_update; [done| |done].
        destruct H as [Hs Ht]. split; [done|]. split; [done | by right].
      * unfold settled. mac_simpl.
        split; [split; [done | eauto]|]. repeat split; try done. by right.
    + unfold settled. mac_simpl.
      split; [split; [done | eauto]|]. repeat split; try done. by left.
Qed.

Lemma on_tick_keeps_settled self e fr :
  finite (bid e) -> settled (fr_pd fr) ->
  settled (fr_pd (snd (on_tick self e fr))).
Proof.
  intros Hbid Hs. apply (wp_snd _ (fun s' => settled (fr_pd s'))).
  wp_use on_tick_settled; [done..| |]; by destruct H.
Qed.

Lemma feed_settled evs : forall s,
  finite_bids evs ->
  map_Forall (fun _ => settled) (pairs_dict s) ->
  map_Forall (fun _ => settled) (pairs_dict (feed evs s)).
Proof.
  induction evs as [|e evs IH]; intros s Hfin HI; simpl; [done|].
  fold (feed evs (snd (calculate_signals e s))).
  apply Forall_cons in Hfin as [He Hfin]. apply IH; [done|].
  unfold calculate_signals.
  destruct (String.eqb (type e) "TICK"); [|done].
  destruct (pairs_dict s !! instrument e) as [pd|] eqn:Hpd; [|done].
  pose proof (on_tick_keeps_settled s e (mkFrame pd (events s)) He (HI _ _ Hpd))
    as Hk.
  destruct (on_tick s e _) as [r fr]. simpl in *.
  by apply map_Forall_insert_2.
Qed.

Lemma reachable_settled ps evs0 sw lw evs p pd :
  finite_bids evs ->
  pairs_dict (feed evs (__init__ ps evs0 sw lw)) !! p = Some pd ->
  settled pd.
Proof.
  intros Hfin. revert p pd. apply feed_settled; [done|].
  intros p pd Hl. simpl in Hl. rewrite (crossover_pairs_dict_lookup _ _ _ Hl).
  split; simpl; [lia | done].
Qed.

Lemma crossover_signals_tick e s pd :
  type e = "TICK" ->
  pairs_dict s !! instrument e = Some pd ->
  calculate_signals e s =
    (fst (on_tick s e (mkFrame pd (events s))),
     {| pairs := pairs s;
        pairs_dict :=
          <[instrument e := fr_pd (snd (on_tick s e (mkFrame pd (events s))))]>
            (pairs_dict s);
        events := fr_events (snd (on_tick s e (mkFrame pd (events s))));
        short_window := short_window s;
        long_window := long_window s |}).
Proof.
  intros Hty Hpd. unfold calculate_signals. rewrite Hty, Hpd. simpl.
  by destruct (on_tick s e _).
Qed.

Lemma finite_bid_tick_run ps evs0 sw lw evs e pd :
  finite_bids evs -> finite (bid e) -> type e = "TICK" ->
  pairs_dict (feed evs (__init__ ps evs0 sw lw)) !! instrument e = Some pd ->
  exists pd',
    pairs_dict (snd (calculate_signals e (feed evs (__init__ ps evs0 sw lw))))
      !! instrument e = Some pd' /\
    ((sw <> 0 /\ lw <> 0 \/ pd_ticks pd = 0) /\
     fst (calculate_signals e (feed evs (__init__ ps evs0 sw lw))) = Returned tt /\
     pd_ticks pd' = pd_ticks pd + 1 \/
     (sw = 0 \/ lw = 0) /\ pd_ticks pd <> 0 /\
     (fst (calculate_signals e (feed evs (__init__ ps evs0 sw lw)))
        = Raised ZeroDivisionError \/
      fst (calculate_signals e (feed evs (__init__ ps evs0 sw lw)))
        = Raised InvalidOperation) /\
     events (snd (calculate_signals e (feed evs (__init__ ps evs0 sw lw))))
       = events (feed evs (__init__ ps evs0 sw lw)) /\
     pd_ticks pd' = pd_ticks pd).
Proof.
  intros Hfin Hbid Hty Hpd.
  pose proof (reachable_settled _ _ _ _ _ _ _ Hfin Hpd) as Hs.
  destruct (crossover_feed_config evs (__init__ ps evs0 sw lw)) as (_ & Hcsw & Hclw).
  rewrite (crossover_signals_tick _ _ _ Hty Hpd).
  set (self := feed evs (__init__ ps evs0 sw lw)) in *. simpl in Hcsw, Hclw.
  pose proof (on_tick_settled self e (mkFrame pd (events self)) Hbid Hs) as Hwp.
  destruct (on_tick self e _) as [r fr'] eqn:Hrun.
  pose proof (wp_run _ _ _ _ _ _ Hwp Hrun) as Hr.
  cbn [fst snd pairs_dict events]. exists (fr_pd fr').
  rewrite lookup_insert_eq. split; [done|].
  rewrite Hcsw, Hclw in Hr. simpl in Hr.
  destruct r as [[]|ex].
  - left. destruct Hr as (_ & Ht & Hc). split; [tauto | done].
  - right. destruct Hr as (_ & Ht & Hev & Hex & Hz & Hne).
    split; [done|]. split; [done|]. split; [|done].
    destruct Hex as [-> | ->]; tauto.
Qed.





Lemma ticks_of_snoc p evs e :
  ticks_of p (evs ++ [e]) =
    ticks_of p evs ++
    (if String.eqb (type e) "TICK" && String.eqb (instrument e) p then [e] else []).
Proof.
  unfold ticks_of. rewrite List.filter_app. simpl.
  by destruct (String.eqb (type e) "TICK" && String.eqb (instrument e) p).
Qed.



(** ** A constant price *)

Lemma roll_fixed c w : w <> 0 -> roll c w c = c.
Proof.
  intros Hw. unfold roll. apply Qc_is_canon.
  unfold Qcdiv, Qcinv, Qcmult, Qcplus, Q2Qc. simpl this.
  rewrite ?Qred_correct. rewrite inject_Z_pred.
  assert (~ inject_Z w == 0)%Q as HL.
  { unfold Qeq. simpl. lia. }
  field. exact HL.
Qed.

Lemma Qc_ltb_irrefl c : Qc_ltb c c = false.
Proof. apply Qc_ltb_ge, Qcle_refl. Qed.

Lemma crossover_equal e t inv c evs :
  crossover e (mkFrame (mkPairState t inv (Some (Fin c)) (Some (Fin c))) evs)
  = (Returned tt, mkFrame (mkPairState t inv (Some (Fin c)) (Some (Fin c))) evs).
Proof.
  match goal with |- ?c ?fr = (Returned tt, ?fr') =>
    assert (wp c (fun _ s' => s' = fr') (fun _ _ => False) fr) as Hwp
  end.
  { unfold crossover. cbv zeta.
    repeat (wp_value_step; mac_simpl); rewrite ?Qc_ltb_irrefl in *; done. }
  destruct (crossover e _) as [r fr'] eqn:Hrun.
  pose proof (wp_run _ _ _ _ _ _ Hwp Hrun) as Hr.
  destruct r as [[]|]; [by subst | done].
Qed.

Lemma on_tick_flat self e c pd evs :
  short_window self <> 0 -> long_window self <> 0 ->
  bid e = Fin c -> flat c pd ->
  exists pd',
    on_tick self e (mkFrame pd evs) = (Returned tt, mkFrame pd' evs) /\
    flat c pd'.
Proof.
  intros Hsw Hlw Hc [H0 Hflat]. destruct pd as [t inv ss ls]. mac_simpl.
  destruct (decide (t = 0)) as [->|Ht].
  - exists (mkPairState 1 inv (Some (Fin c)) (Some (Fin c))).
    split; [|split; [simpl; lia | done]].
    unfold on_tick, update_smas, bind, rd, wr, gets, modify. cbv zeta.
    rewrite Hc. cbn [Z.eqb fr_pd fr_events pd_ticks]. cbv iota.
    unfold set_long_sma, set_short_sma.
    cbn [pd_ticks pd_invested pd_short_sma pd_long_sma].
    destruct (short_window self <? 0); unfold when; [rewrite crossover_equal|];
      reflexivity.
  - destruct (Hflat Ht) as [-> ->].
    rewrite (on_tick_run self e t inv c c c) by done. cbv zeta.
    rewrite !roll_fixed by done. rewrite Qc_ltb_irrefl.
    rewrite !andb_false_r. cbn [andb]. rewrite !app_nil_r.
    eexists. split; [reflexivity|]. split; simpl; [lia | done].
Qed.

Lemma feed_flat c evs0 evs : forall s,
  short_window s <> 0 -> long_window s <> 0 ->
  Forall (fun e => bid e = Fin c) evs ->
  events s = evs0 -> map_Forall (fun _ => flat c) (pairs_dict s) ->
  events (feed evs s) = evs0.
Proof.
  induction evs as [|e evs IH]; intros s Hsw Hlw Hall Hev HI; simpl; [done|].
  fold (feed evs (snd (calculate_signals e s))).
  apply Forall_cons in Hall as [He Hall].
  destruct (crossover_signals_config e s) as (_ & Hsw' & Hlw').
  apply IH; [congruence | congruence | done | |].
  - unfold calculate_signals.
    destruct (String.eqb (type e) "TICK"); [|done].
    destruct (pairs_dict s !! instrument e) as [pd|] eqn:Hpd; [|done].
    destruct (on_tick_flat s e c pd (events s) Hsw Hlw He (HI _ _ Hpd))
      as (pd' & -> & _). done.
  - unfold calculate_signals.
    destruct (String.eqb (type e) "TICK"); [|done].
    destruct (pairs_dict s !! instrument e) as [pd|] eqn:Hpd; [|done].
    destruct (on_tick_flat s e c pd (events s) Hsw Hlw He (HI _ _ Hpd))
      as (pd' & -> & Hflat). simpl. by apply map_Forall_insert_2.
Qed.




End MACFacts.

(** * Properties of TestStrategy *)

Module TestFacts.
Import TestStrategy.

Lemma test_signals_accepted p0 rest evs n inv e :
  accepted p0 e = true ->
  calculate_signals e (mkSelf (p0 :: rest) evs n inv) =
    (Returned tt,
     if n mod 5 =? 0 then
       mkSelf (p0 :: rest)
         (evs ++ [mkSignalEvent p0 "market" (if negb inv then "buy" else "sell")
                    (time e)])
         (n + 1) (negb inv)
     else mkSelf (p0 :: rest) evs (n + 1) inv).
Proof.
  unfold accepted. intros [Hty Hin]%andb_prop.
  unfold calculate_signals. rewrite Hty.
  unfold bind, gets, first_pair, ret; simpl. rewrite Hin.
  cbn [ticks]. destruct (n mod 5 =? 0); unfold when; [destruct inv|]; reflexivity.
Qed.

Lemma test_signals_ignored p0 rest evs n inv e :
  accepted p0 e = false ->
  calculate_signals e (mkSelf (p0 :: rest) evs n inv) =
    (Returned tt, mkSelf (p0 :: rest) evs n inv).
Proof.
  unfold accepted, calculate_signals. intros Hacc.
  destruct (String.eqb (type e) "TICK"); [|done].
  unfold bind, gets, first_pair, ret; simpl. simpl in Hacc. by rewrite Hacc.
Qed.

Lemma period_parity_same n :
  0 <= n -> n mod 5 <> 0 -> (n + 1 + 4) / 5 = (n + 4) / 5.
Proof. intros. Z.to_euclidean_division_equations. lia. Qed.

Lemma period_parity_next n :
  0 <= n -> n mod 5 = 0 -> (n + 4) / 5 = n / 5 /\ (n + 1 + 4) / 5 = n / 5 + 1.
Proof. intros. Z.to_euclidean_division_equations. lia. Qed.

Lemma test_feed_cons e evs s :
  feed (e :: evs) s = feed evs (snd (calculate_signals e s)).
Proof. reflexivity. Qed.

Lemma feed_cadence p0 rest evs : forall evs0 n,
  0 <= n ->
  feed evs (mkSelf (p0 :: rest) evs0 n (Z.odd ((n + 4) / 5))) =
    mkSelf (p0 :: rest)
      (evs0 ++ cadence p0 n (List.filter (accepted p0) evs))
      (n + Z.of_nat (length (List.filter (accepted p0) evs)))
      (Z.odd ((n + Z.of_nat (length (List.filter (accepted p0) evs)) + 4) / 5)).
Proof.
  induction evs as [|e evs IH]; intros evs0 n Hn.
  - simpl. by rewrite app_nil_r, Z.add_0_r.
  - rewrite test_feed_cons. cbn [List.filter].
    destruct (accepted p0 e) eqn:Hacc.
    + rewrite test_signals_accepted by done. cbn [snd cadence length].
      destruct (n mod 5 =? 0) eqn:Hm.
      * apply Z.eqb_eq in Hm.
        destruct (period_parity_next n Hn Hm) as [H1 H2].
        assert ((if negb (Z.odd ((n + 4) / 5)) then "buy" else "sell")
                = if Z.even (n / 5) then "buy" else "sell") as Hside
          by (by rewrite H1, Z.negb_odd).
        assert (negb (Z.odd ((n + 4) / 5)) = Z.odd ((n + 1 + 4) / 5)) as Hinv.
        { rewrite H1, H2, Z.add_1_r, Z.odd_succ. apply Z.negb_odd. }
        rewrite Hside, Hinv, IH by lia.
        rewrite <- app_assoc. f_equal; [lia | f_equal; f_equal; lia].
      * apply Z.eqb_neq in Hm.
        rewrite <- (period_parity_same n Hn Hm), IH by lia.
        f_equal; [lia | f_equal; f_equal; lia].
    + rewrite test_signals_ignored by done. cbn [snd]. by apply IH.
Qed.

(** X22: a strategy created with the primary pair [p0] and fed any events
    has counted the ticks of [p0] among them and has put, after the
    signals it was created with, one signal for every fifth of those
    ticks (the first, the sixth, ...), a buy and a sell in turn starting
    with a buy; it is invested when the number of signals put is odd. *)
Theorem every_fifth_tick_alternates (p0 : string) (rest : list string)
    (evs0 : list SignalEvent) (evs : list Event) :
  feed evs (__init__ (p0 :: rest) evs0) =
    mkSelf (p0 :: rest)
      (evs0 ++ cadence p0 0 (List.filter (accepted p0) evs))
      (Z.of_nat (length (List.filter (accepted p0) evs)))
      (Z.odd ((Z.of_nat (length (List.filter (accepted p0) evs)) + 4) / 5)).
Proof. apply (feed_cadence p0 rest evs evs0 0). lia. Qed.

(** X23: [calculate_signals] raises an exception only when the list of
    pairs is empty and the event is a tick: [self.pairs[0]] then raises
    [IndexError] and the strategy is left as it was.  With at least one
    pair, or on an event that is not a tick, it returns. *)
Theorem index_error_only_without_pairs (self : Self) (e : Event) :
  (pairs self = [] /\ type e = "TICK" ->
   calculate_signals e self = (Raised IndexError, self)) /\
  (pairs self <> [] \/ type e <> "TICK" ->
   fst (calculate_signals e self) = Returned tt).
Proof.
  split.
  - intros [Hp Hty]. destruct self as [ps evs n inv]. simpl in Hp. subst ps.
    unfold calculate_signals. by rewrite Hty.
  - intros H. destruct self as [ps evs n inv]. simpl in H.
    destruct (accepted (default "" (head ps)) e) eqn:Hacc.
    + destruct ps as [|p0 rest].
      * destruct H as [H|H]; [done|].
        apply andb_prop in Hacc as [Hty _]. by apply String.eqb_eq in Hty.
      * by rewrite test_signals_accepted.
    + destruct ps as [|p0 rest].
      * destruct H as [H|H]; [done|]. apply String.eqb_neq in H.
        unfold calculate_signals. by rewrite H.
      * by rewrite test_signals_ignored.
Qed.

End TestFacts.
